(** * gensim similarity server: the incremental similarity index

    A shallow embedding of [gensim/similarities/simserver.py] (classes
    [SimIndex] and [SimServer], function [merge_sim]) together with the
    properties of its natural-language specification.

    Conventions of the embedding:
    - Python dictionaries are stdpp [gmap]s; document ids are strings and
      positions are natural numbers.
    - Similarity scores are floating-point numbers in the source; they are
      modelled as integers (a fixed-point reading), the only operations the
      index applies to them being [abs], negation and comparison.
    - A method of [SimIndex] is a computation in a state-and-exception monad:
      a raised Python exception keeps the mutations done before it, exactly as
      an attribute assignment on [self] survives a later [raise].
    - The semantic model and the similarity kernel are external collaborators;
      they are the fields of the class [Backend].
    - A dictionary handed to a method ([fresh_docs]) is the list of its items
      in the order [keys()] yields them; an iterable of ids ([delete]) is the
      list of its elements in iteration order.
    - [numpy.argsort] leaves the order of equal values open; the embedding
      keeps them in position order.  The general properties below do not
      depend on this choice. *)

From Stdlib Require Import ZArith Lia.
From stdpp Require Import base option list strings gmap fin_maps sorting.

Local Open Scope Z_scope.

(** ** External collaborators *)

(** [SimModel.doc2vec] turns a document into a vector; [docs2vecs] is its
    batch version.  [unitvec] is the normalisation the similarity kernel
    applies to every vector it stores and, in normalised mode, to a query;
    [dot] is the raw (unnormalised) score of a query against a stored
    vector. *)
Class Backend := {
  Doc : Type;
  Vec : Type;
  doc2vec : Doc → Vec;
  unitvec : Vec → Vec;
  dot : Vec → Vec → Z
}.

Abbreviation DocId := string.

(** A ranked list: (peer id, score) pairs. *)
Abbreviation Sims := (list (DocId * Z)).

(** ** Sorting primitives of the host language *)

(** Stable insertion of [x] into a list sorted ascending by [key]. *)
Fixpoint insert_by {A} (key : A → Z) (x : A) (l : list A) : list A :=
  match l with
  | [] => [x]
  | y :: l' => if key x <=? key y then x :: l else y :: insert_by key x l'
  end.

(** Python's [sorted(l, key=key)]: stable, ascending by key. *)
Definition sorted {A} (key : A → Z) (l : list A) : list A :=
  foldr (insert_by key) [] l.

(** The element of a score array at a position ([sims[pos]]). *)
Definition at_pos (sims : list Z) (pos : nat) : Z := nth pos sims 0.

(** [numpy.argsort(sims)]: the positions of [sims] in ascending order of
    their values (ties are kept in position order). *)
Definition argsort (sims : list Z) : list nat :=
  sorted (at_pos sims) (seq 0 (length sims)).

(** ** The similarity kernel *)

(** Modelled from the spec: the class [gensim.similarities.Similarity] (the
    VectorStore of the specification) is used by [simserver.py] and defined
    elsewhere.  It is an append-only sequence of vectors, normalised when
    stored; [iter_chunks] replays the stored vectors in position order, and
    since the loops of [SimIndex] only count positions across chunks, the
    chunks are modelled by their concatenation; a query returns, per stored
    position, the dot product with the query vector, which is normalised first
    unless the [normalize] attribute is off. *)
Module Similarity.
Definition t `{Backend} := list Vec.

Definition empty `{Backend} : t := [].

Definition add_documents `{Backend} (vectors : list Vec) (index : t) : t :=
  index ++ map unitvec vectors.

(** The concatenation of the chunks, in position order. *)
Definition iter_chunks `{Backend} (index : t) : list Vec := index.

(** [index[query]] with the [normalize] attribute as given. *)
Definition getitem `{Backend} (normalize : bool) (index : t) (query : Vec)
  : list Z :=
  map (dot (if normalize then unitvec query else query)) index.

(** [index.similarity_by_id(docpos)]: the stored vector queried in
    unnormalised mode. *)
Definition similarity_by_id `{Backend} (index : t) (docpos : nat)
  : option (list Z) :=
  query ← index !! docpos; Some (getitem false index query).
End Similarity.

(** ** merge_sim *)

(** [SimIndex.TOP_SIMS]. *)
Definition TOP_SIMS : nat := 100.

(** [sorted(oldsims + newsims, key=lambda item: -item[1])[:TOP_SIMS]] *)
Definition merge_sim (oldsims newsims : Sims) : Sims :=
  take TOP_SIMS (sorted (λ item, - item.2) (oldsims ++ newsims)).

(** ** Exceptions and the method monad *)

Inductive exn :=
| KeyError_docid (docid : DocId)
| KeyError_pos (pos : nat)
| IndexError (pos : nat)
| AttributeError (attr : string)
| AssertionError (msg : string).

Inductive Res (S A : Type) :=
| Ok (a : A) (s : S)
| Err (e : exn) (s : S).
Arguments Ok {S A} a s.
Arguments Err {S A} e s.

Definition M (S A : Type) : Type := S → Res S A.

Definition ret {S A} (a : A) : M S A := λ s, Ok a s.
Definition raise {S A} (e : exn) : M S A := λ s, Err e s.
Definition bind {S A B} (m : M S A) (k : A → M S B) : M S B :=
  λ s, match m s with
       | Ok a s' => k a s'
       | Err e s' => Err e s'
       end.
Definition get {S} : M S S := λ s, Ok s s.
Definition modify {S} (f : S → S) : M S unit := λ s, Ok tt (f s).

Notation "'let*' x := m 'in' k" := (bind m (λ x, k))
  (at level 10, x name, m at level 100, k at level 200).
Notation "m ;; k" := (bind m (λ _, k))
  (at level 100, k at level 200, right associativity).

(** A Python [for x in xs: body(x)]. *)
Fixpoint for_each {S A} (xs : list A) (body : A → M S unit) : M S unit :=
  match xs with
  | [] => ret tt
  | x :: xs' => body x ;; for_each xs' body
  end.

(** [d[k]] on a dictionary: the value, or the given exception. *)
Definition subscript {S A} (o : option A) (e : exn) : M S A :=
  match o with
  | Some a => ret a
  | None => raise e
  end.

(** ** SimIndex *)

Module SimIndex.

(** The attributes of the class; [qindex] is [None] until the first indexing
    call has created it ([hasattr(self, 'qindex')]). *)
Record t `{Backend} := mk {
  id2pos : gmap DocId nat;
  pos2id : gmap nat DocId;
  id2sims : gmap DocId Sims;
  precompute : bool;
  length : nat;
  qindex : option Similarity.t
}.

(** [SimIndex.__init__] *)
Definition init `{Backend} (precompute : bool) : t :=
  {| id2pos := ∅; pos2id := ∅; id2sims := ∅; precompute := precompute;
     length := 0; qindex := None |}.

Definition set_id2pos `{Backend} (f : gmap DocId nat → gmap DocId nat)
  (self : t) : t :=
  {| id2pos := f (id2pos self); pos2id := pos2id self;
     id2sims := id2sims self; precompute := precompute self;
     length := length self; qindex := qindex self |}.

Definition set_pos2id `{Backend} (f : gmap nat DocId → gmap nat DocId)
  (self : t) : t :=
  {| id2pos := id2pos self; pos2id := f (pos2id self);
     id2sims := id2sims self; precompute := precompute self;
     length := length self; qindex := qindex self |}.

Definition set_id2sims `{Backend} (f : gmap DocId Sims → gmap DocId Sims)
  (self : t) : t :=
  {| id2pos := id2pos self; pos2id := pos2id self;
     id2sims := f (id2sims self); precompute := precompute self;
     length := length self; qindex := qindex self |}.

Definition set_length `{Backend} (f : nat → nat) (self : t) : t :=
  {| id2pos := id2pos self; pos2id := pos2id self;
     id2sims := id2sims self; precompute := precompute self;
     length := f (length self); qindex := qindex self |}.

Definition set_qindex `{Backend} (q : Similarity.t) (self : t) : t :=
  {| id2pos := id2pos self; pos2id := pos2id self;
     id2sims := id2sims self; precompute := precompute self;
     length := length self; qindex := Some q |}.

(** The body of the loop of [updateids] for one [docid] (lines 145-150). *)
Definition updateid `{Backend} (docid : DocId) : M t unit :=
  let* self := get in
  match id2pos self !! docid with
  | Some oldpos =>
      (* del self.pos2id[self.id2pos[docid]] *)
      subscript (pos2id self !! oldpos) (KeyError_pos oldpos) ;;
      modify (set_pos2id (base.delete oldpos))
  | None => ret tt
  end ;;
  let* self := get in
  modify (set_id2pos <[docid := length self]>) ;;
  modify (set_pos2id <[length self := docid]>) ;;
  modify (set_length S).

(** [SimIndex.updateids] *)
Definition updateids `{Backend} (docids : list DocId) : M t unit :=
  for_each docids updateid.

(** [dict((v, k) for k, v in d.iteritems())]: a later pair overwrites an
    earlier one with the same key. *)
Definition inverse_dict (d : gmap DocId nat) : gmap nat DocId :=
  foldl (λ acc kv, <[(kv.2) := (kv.1)]> acc) ∅ (map_to_list d).

(** The body of the first loop of [delete]: [del self.id2pos[docid]]. *)
Definition delete_one `{Backend} (docid : DocId) : M t unit :=
  let* self := get in
  subscript (id2pos self !! docid) (KeyError_docid docid) ;;
  modify (set_id2pos (base.delete docid)).

(** [SimIndex.delete]: the ids are removed one by one, then [pos2id] is
    rebuilt from [id2pos] and the sizes are compared. *)
Definition delete `{Backend} (docids : list DocId) : M t unit :=
  for_each docids delete_one ;;
  let* self := get in
  modify (set_pos2id (λ _, inverse_dict (id2pos self))) ;;
  let* self := get in
  if Nat.eqb (size (pos2id self)) (size (id2pos self)) then ret tt
  else raise (AssertionError "duplicate ids or positions detected").

(** The loop of [sims2scores] over the positions still to visit, [result]
    being the list built so far; [sims] is already [abs(sims)]. *)
Fixpoint sims2scores_loop (pos2id : gmap nat DocId) (sims : list Z)
    (order : list nat) (result : Sims) : Sims :=
  match order with
  | [] => result
  | pos :: order' =>
      match pos2id !! pos with
      | Some docid =>
          let result := result ++ [(docid, at_pos sims pos)] in
          if Nat.eqb (Datatypes.length result) TOP_SIMS then result
          else sims2scores_loop pos2id sims order' result
      | None => sims2scores_loop pos2id sims order' result
      end
  end.

(** [SimIndex.sims2scores]: the positions are visited by decreasing absolute
    score ([numpy.argsort(sims)[::-1]]). *)
Definition sims2scores `{Backend} (self : t) (sims : list Z) : Sims :=
  let sims := map Z.abs sims in
  sims2scores_loop (pos2id self) sims (reverse (argsort sims)) [].

(** The body of the loop that updates the precomputed values of the old
    documents (lines 113-116): [pv] is a position of the permanent index with
    the stored vector found there, [sims] its scores against the temporary
    index, whose [normalize] attribute is off. *)
Definition update_old_one `{Backend} (tmpindex : Similarity.t)
    (pv : nat * Vec) : M t unit :=
  let sims := Similarity.getitem false tmpindex pv.2 in
  let* self := get in
  let* docid := subscript (pos2id self !! pv.1) (KeyError_pos pv.1) in
  let sims := sims2scores self sims in
  let* oldsims := subscript (id2sims self !! docid) (KeyError_docid docid) in
  modify (set_id2sims <[docid := merge_sim oldsims sims]>).

Definition update_old `{Backend} (tmpindex : Similarity.t)
    (stored : list Vec) : M t unit :=
  for_each (imap (λ pos vec, (pos, vec)) stored) (update_old_one tmpindex).

(** The body of the loop that precomputes the values of the new documents
    (lines 132-134): [pv] is a position of the temporary index with its
    vector; [self.qindex.normalize] is off around the loop. *)
Definition precompute_one `{Backend} (docids : list DocId)
    (pv : nat * Vec) : M t unit :=
  let* self := get in
  let* q := subscript (qindex self) (AttributeError "qindex") in
  let sims := Similarity.getitem false q pv.2 in
  let* docid := subscript (docids !! pv.1) (IndexError pv.1) in
  modify (set_id2sims <[docid := sims2scores self sims]>).

Definition precompute_new `{Backend} (docids : list DocId)
    (tmpindex : Similarity.t) : M t unit :=
  for_each (imap (λ pos vec, (pos, vec)) (Similarity.iter_chunks tmpindex))
    (precompute_one docids).

(** [SimIndex.index_documents]; the model argument of the source is the
    [Backend]. *)
Definition index_documents `{Backend} (fresh_docs : list (DocId * Doc))
  : M t unit :=
  let* self := get in
  match qindex self with
  | None => modify (set_qindex Similarity.empty)
  | Some _ => ret tt
  end ;;
  let docids := fresh_docs.*1 in
  let vectors := map doc2vec fresh_docs.*2 in
  let* self := get in
  let q := default Similarity.empty (qindex self) in
  if negb (precompute self) then
    modify (set_qindex (Similarity.add_documents vectors q)) ;;
    updateids docids
  else
    let tmpindex := Similarity.add_documents vectors Similarity.empty in
    update_old tmpindex (Similarity.iter_chunks q) ;;
    modify (set_qindex
              (Similarity.add_documents (Similarity.iter_chunks tmpindex) q)) ;;
    updateids docids ;;
    precompute_new docids tmpindex.

(** [SimIndex.sims_by_id]; in [self.qindex.similarity_by_id(self.id2pos[docid])]
    the method is looked up on [self.qindex] before the argument is
    evaluated. *)
Definition sims_by_id `{Backend} (docid : DocId) : M t Sims :=
  let* self := get in
  if precompute self then
    subscript (id2sims self !! docid) (KeyError_docid docid)
  else
    let* q := subscript (qindex self) (AttributeError "qindex") in
    let* pos := subscript (id2pos self !! docid) (KeyError_docid docid) in
    let* sims := subscript (Similarity.similarity_by_id q pos) (IndexError pos) in
    ret (sims2scores self sims).

(** [SimIndex.sims_by_doc]: the query is normalised by the kernel. *)
Definition sims_by_doc `{Backend} (doc : Doc) : M t Sims :=
  let vec := doc2vec doc in
  let* self := get in
  let* q := subscript (qindex self) (AttributeError "qindex") in
  ret (sims2scores self (Similarity.getitem true q vec)).

End SimIndex.

(** ** SimServer.find_similar *)

(** The query of [find_similar]: a string (a document id) or a document. *)
Inductive Query `{Backend} :=
| ById (docid : DocId)
| ByDoc (doc : Doc).

(** The loop of [find_similar] over the pairs still to visit, [result] being
    the list built so far. *)
Fixpoint find_similar_loop (min_score max_results : Z) (sims result : Sims)
  : Sims :=
  match sims with
  | [] => result
  | (docid, score) :: sims' =>
      if (score <? min_score)
         || ((0 <? max_results) && (max_results <=? Z.of_nat (length result)))
      then result
      else find_similar_loop min_score max_results sims'
             (result ++ [(docid, score)])
  end.

(** [SimServer.find_similar], on the index of the server. *)
Definition find_similar `{Backend} (doc : Query) (min_score max_results : Z)
  : M SimIndex.t Sims :=
  let* sims := match doc with
               | ById docid => SimIndex.sims_by_id docid
               | ByDoc doc => SimIndex.sims_by_doc doc
               end in
  ret (find_similar_loop min_score max_results sims []).

(** ** SimIndex.__len__ and SimServer *)

(** [SimIndex.__len__]: the number of mapped ids. *)
Definition simindex_len `{Backend} (self : SimIndex.t) : nat :=
  size (SimIndex.id2pos self).

(** The truth value Python gives to an attribute holding [None] or a
    [SimIndex]: an object with a [__len__] is false when its length is 0. *)
Definition simindex_truth `{Backend} (o : option SimIndex.t) : bool :=
  match o with
  | None => false
  | Some self => negb (Nat.eqb (simindex_len self) 0)
  end.

Module SimServer.

(** The attributes of the class.  [simmodel] records whether the attribute
    holds a model, an object that is always true; the model itself is the
    [Backend], and [SimServer.train], which builds it with gensim, is not
    embedded.  A document given to the server is a pair of its ['id'] field
    and the document.  The string of an [AttributeError] is the name of the
    missing attribute, or the message given to [raise]. *)
Record t `{Backend} := mk {
  basename : string;
  simindex : option SimIndex.t;
  simmodel : bool;
  fresh_docs : gmap DocId Doc
}.

Definition set_simindex `{Backend} (o : option SimIndex.t) (self : t) : t :=
  {| basename := basename self; simindex := o; simmodel := simmodel self;
     fresh_docs := fresh_docs self |}.

Definition set_simmodel `{Backend} (b : bool) (self : t) : t :=
  {| basename := basename self; simindex := simindex self; simmodel := b;
     fresh_docs := fresh_docs self |}.

Definition set_fresh_docs `{Backend} (f : gmap DocId Doc → gmap DocId Doc)
  (self : t) : t :=
  {| basename := basename self; simindex := simindex self;
     simmodel := simmodel self; fresh_docs := f (fresh_docs self) |}.

(** [SimServer.flush]; saving the server to disk leaves the object as it
    is. *)
Definition flush `{Backend} (delete_fresh : bool) : M t unit :=
  if delete_fresh then modify (set_fresh_docs (λ _, ∅)) else ret tt.

(** [SimServer.__init__] *)
Definition init `{Backend} (basename : string) : t :=
  {| basename := basename; simindex := None; simmodel := false;
     fresh_docs := ∅ |}.

(** [SimServer.add_documents] *)
Definition add_documents `{Backend} (documents : list (DocId * Doc))
  : M t unit :=
  for_each documents (λ doc, modify (set_fresh_docs <[(doc.1) := (doc.2)]>)).

(** A method call on [self.simindex]: the object is mutated in place, and an
    exception leaves it as the call left it.  On [None] the attribute lookup
    raises. *)
Definition on_simindex `{Backend} {A} (method : string)
    (m : M SimIndex.t A) : M t A :=
  λ self,
    match simindex self with
    | None => Err (AttributeError method) self
    | Some idx =>
        match m idx with
        | Ok a idx' => Ok a (set_simindex (Some idx') self)
        | Err e idx' => Err e (set_simindex (Some idx') self)
        end
    end.

(** [SimServer.index].  A new [SimIndex] precomputes, by the default of its
    constructor.  The keys of the buffer reach [index_documents] in the order
    in which the dictionary lists them, here the one of [map_to_list]. *)
Definition index `{Backend} (corpus : option (list (DocId * Doc)))
  : M t unit :=
  let* self := get in
  (if simmodel self then ret tt
   else raise (AttributeError
                 ("must initialize the model for " +:+ basename self
                  +:+ " before indexing documents"))) ;;
  match corpus with
  | Some documents => flush true ;; add_documents documents
  | None => ret tt
  end ;;
  let* self := get in
  (if simindex_truth (simindex self) then ret tt
   else modify (set_simindex (Some (SimIndex.init true)))) ;;
  let* self := get in
  on_simindex "index_documents"
    (SimIndex.index_documents (map_to_list (fresh_docs self))) ;;
  flush true.

(** [SimServer.find_similar] *)
Definition find_similar `{Backend} (doc : Query) (min_score max_results : Z)
  : M t Sims :=
  on_simindex
    match doc with ById _ => "sims_by_id" | ByDoc _ => "sims_by_doc" end
    (find_similar doc min_score max_results).

(** [SimServer.drop_index] *)
Definition drop_index `{Backend} (keep_model : bool) : M t unit :=
  modify (set_simindex None) ;;
  (if keep_model then ret tt else modify (set_simmodel false)) ;;
  flush true.

End SimServer.

(** * Specification vocabulary *)

(** ** Outcomes and ranked lists *)

(** The state a call leaves behind, whether it returned or raised. *)
Definition state_of {S A} (r : Res S A) : S :=
  match r with Ok _ s | Err _ s => s end.

(** A ranked list in non-increasing order of score. *)
Definition desc (l : Sims) : Prop := StronglySorted (λ x y, y.2 ≤ x.2) l.

(** The pairs [sims2scores] would collect from [order] without the cap: the
    positions that [pos2id] maps, each with its id and score. *)
Definition live_pairs (pos2id : gmap nat DocId) (sims : list Z)
    (order : list nat) : Sims :=
  omap (λ pos, (λ docid, (docid, at_pos sims pos)) <$> pos2id !! pos) order.


(** The ranked list [find_similar] starts from. *)
Definition ranked_list `{Backend} (doc : Query) : M SimIndex.t Sims :=
  match doc with
  | ById docid => SimIndex.sims_by_id docid
  | ByDoc doc => SimIndex.sims_by_doc doc
  end.

(** Every stored SimilarityCache entry is capped and sorted. *)
Definition cache_ok `{Backend} (s : SimIndex.t) : Prop :=
  ∀ docid l, SimIndex.id2sims s !! docid = Some l →
             (length l ≤ TOP_SIMS)%nat ∧ desc l.

(** ** The vector store *)

(** The vectors of the permanent index, none before the first call. *)
Definition stored_vectors `{Backend} (s : SimIndex.t) : list Vec :=
  default [] (SimIndex.qindex s).

(** What a batch adds to the permanent index.  The precomputing branch goes
    through the temporary index, so its vectors are normalised twice. *)
Definition stored_batch `{Backend} (precompute : bool)
    (fresh_docs : list (DocId * Doc)) : list Vec :=
  let vectors := map doc2vec fresh_docs.*2 in
  if precompute then map unitvec (map unitvec vectors) else map unitvec vectors.

(** What the kernel stores for the one document of a first batch. *)
Definition stored_alone `{Backend} (precompute : bool) (doc : Doc) : Vec :=
  if precompute then unitvec (unitvec (doc2vec doc)) else unitvec (doc2vec doc).

(** The score of a document against its own stored vector. *)
Definition self_similarity `{Backend} (precompute : bool) (doc : Doc) : Z :=
  Z.abs (dot (unitvec (doc2vec doc)) (stored_alone precompute doc)).

(** The state once [index_documents] has made sure that [qindex] exists. *)
Definition with_qindex `{Backend} (s : SimIndex.t) : SimIndex.t :=
  match SimIndex.qindex s with
  | None => SimIndex.set_qindex Similarity.empty s
  | Some _ => s
  end.

(** ** The IdentityMap *)

(** [pos2id[id2pos[docid]] == docid] for every id of [id2pos]. *)
Definition forward `{Backend} (s : SimIndex.t) : Prop :=
  ∀ docid pos, SimIndex.id2pos s !! docid = Some pos →
               SimIndex.pos2id s !! pos = Some docid.

(** [id2pos[pos2id[pos]] == pos] for every position of [pos2id]. *)
Definition backward `{Backend} (s : SimIndex.t) : Prop :=
  ∀ pos docid, SimIndex.pos2id s !! pos = Some docid →
               SimIndex.id2pos s !! docid = Some pos.

(** Every mapped position was allocated: it is below the counter. *)
Definition bounded `{Backend} (s : SimIndex.t) : Prop :=
  ∀ pos docid, SimIndex.pos2id s !! pos = Some docid →
               (pos < SimIndex.length s)%nat.

(** What every call keeps, even one that raises. *)
Definition sound `{Backend} (s : SimIndex.t) : Prop := forward s ∧ bounded s.

(** The two dictionaries are inverse of each other. *)
Definition exact `{Backend} (s : SimIndex.t) : Prop := sound s ∧ backward s.

(** The inverse-mapping invariant in the words of the specification. *)
Definition inverse_maps `{Backend} (s : SimIndex.t) : Prop :=
  forward s ∧ size (SimIndex.pos2id s) = size (SimIndex.id2pos s).

(** ** Frames: what a step leaves alone *)

Definition same_rest `{Backend} (s s' : SimIndex.t) : Prop :=
  SimIndex.id2sims s' = SimIndex.id2sims s
  ∧ SimIndex.precompute s' = SimIndex.precompute s
  ∧ SimIndex.qindex s' = SimIndex.qindex s.

Definition same_identity `{Backend} (s s' : SimIndex.t) : Prop :=
  SimIndex.id2pos s' = SimIndex.id2pos s
  ∧ SimIndex.pos2id s' = SimIndex.pos2id s
  ∧ SimIndex.length s' = SimIndex.length s
  ∧ stored_vectors s' = stored_vectors s
  ∧ SimIndex.precompute s' = SimIndex.precompute s.

(** The id maps of [s'] are those of [s] after [updateids docids]: the ids of
    the batch sit at positions allocated from the counter of [s], the other
    ids are mapped as before, an old position is kept or dropped, and the old
    position of an id of the batch is dropped. *)
Definition updated `{Backend} (docids : list DocId) (s s' : SimIndex.t) : Prop :=
  SimIndex.length s' = (SimIndex.length s + length docids)%nat
  ∧ (∀ docid, docid ∈ docids →
       ∃ pos, SimIndex.id2pos s' !! docid = Some pos
              ∧ (SimIndex.length s ≤ pos)%nat)
  ∧ (∀ docid, docid ∉ docids →
       SimIndex.id2pos s' !! docid = SimIndex.id2pos s !! docid)
  ∧ (∀ pos, (pos < SimIndex.length s)%nat →
       SimIndex.pos2id s' !! pos = None
       ∨ SimIndex.pos2id s' !! pos = SimIndex.pos2id s !! pos)
  ∧ (∀ docid old, docid ∈ docids → SimIndex.id2pos s !! docid = Some old →
       SimIndex.pos2id s' !! old = None).

(** [s'] is [s] after the first loop of [delete] has removed the ids [pre],
    each of them present when its turn came. *)
Definition removed `{Backend} (pre : list DocId) (s s' : SimIndex.t) : Prop :=
  SimIndex.id2pos s' = foldl (λ m k, delete k m) (SimIndex.id2pos s) pre
  ∧ (size (SimIndex.id2pos s') + length pre = size (SimIndex.id2pos s))%nat
  ∧ SimIndex.pos2id s' = SimIndex.pos2id s
  ∧ SimIndex.length s' = SimIndex.length s
  ∧ same_rest s s'.

(** ** Histories *)

(** The states an index can be in: a fresh index, and the state left by any
    call of [index_documents] or [delete], whether it returned or raised. *)
Inductive reachable `{Backend} : SimIndex.t → Prop :=
| reachable_init precompute : reachable (SimIndex.init precompute)
| reachable_index s fresh_docs :
    reachable s → reachable (state_of (SimIndex.index_documents fresh_docs s))
| reachable_delete s docids :
    reachable s → reachable (state_of (SimIndex.delete docids s)).

(** The states reached when no [delete] has raised. *)
Inductive consistent `{Backend} : SimIndex.t → Prop :=
| consistent_init precompute : consistent (SimIndex.init precompute)
| consistent_index s fresh_docs :
    consistent s →
    consistent (state_of (SimIndex.index_documents fresh_docs s))
| consistent_delete s docids s' :
    consistent s → SimIndex.delete docids s = Ok tt s' → consistent s'.

(** ** Properties in the words of the specification *)

(** A SimilarityCache entry of [docid] as the data model describes it. *)
Definition entry_as_specified `{Backend} (s : SimIndex.t) (docid : DocId)
    (l : Sims) : Prop :=
  (length l ≤ TOP_SIMS)%nat
  ∧ StronglySorted (λ x y, y.2 < x.2) l
  ∧ NoDup l.*1
  ∧ (docid ∉ l.*1)
  ∧ ∀ peer, peer ∈ l.*1 → is_Some (SimIndex.id2pos s !! peer).

(** A score the kernel can give to a normalised query against a stored
    vector. *)
Definition attainable `{Backend} (score : Z) : Prop :=
  ∃ query stored : Vec, score = Z.abs (dot (unitvec query) (unitvec stored)).

(** The round trip with the document at the maximal attainable score. *)
Definition round_trip_at_maximum `{Backend} (precompute : bool)
    (docid : DocId) (doc : Doc) : Prop :=
  ∃ s' l score,
    SimIndex.index_documents [(docid, doc)] (SimIndex.init precompute) = Ok tt s'
    ∧ SimIndex.sims_by_id docid s' = Ok l s'
    ∧ SimIndex.sims_by_doc doc s' = Ok l s'
    ∧ (docid, score) ∈ l
    ∧ attainable score ∧ ∀ score', attainable score' → score' ≤ score.


(** ** The counter, ghost slots and the cache *)

(** The position counter is the number of stored vectors. *)
Definition aligned `{Backend} (s : SimIndex.t) : Prop :=
  SimIndex.length s = length (stored_vectors s).

(** No ghost slot: every allocated position is mapped. *)
Definition full `{Backend} (s : SimIndex.t) : Prop :=
  ∀ pos, (pos < SimIndex.length s)%nat → is_Some (SimIndex.pos2id s !! pos).

(** Every id of [pos2id] has a SimilarityCache entry. *)
Definition cached `{Backend} (s : SimIndex.t) : Prop :=
  ∀ pos docid, SimIndex.pos2id s !! pos = Some docid →
               is_Some (SimIndex.id2sims s !! docid).

(** A ghost slot: an allocated position that [pos2id] does not map. *)
Definition ghost_slot `{Backend} (s : SimIndex.t) (pos : nat) : Prop :=
  (pos < SimIndex.length s)%nat ∧ SimIndex.pos2id s !! pos = None.

(** ** Where a batch is put *)

(** The id maps and the counter are the same. *)
Definition same_idmaps `{Backend} (s s' : SimIndex.t) : Prop :=
  SimIndex.id2pos s' = SimIndex.id2pos s
  ∧ SimIndex.pos2id s' = SimIndex.pos2id s
  ∧ SimIndex.length s' = SimIndex.length s.

(** Where [updateids docids] puts things: a new position holds an id of the
    batch, the position of an id outside the batch is kept, and distinct ids
    take the new positions in the order of the batch. *)
Definition assigned `{Backend} (docids : list DocId) (s s' : SimIndex.t) : Prop :=
  (∀ pos docid, (SimIndex.length s ≤ pos)%nat →
     SimIndex.pos2id s' !! pos = Some docid → docid ∈ docids)
  ∧ (∀ pos docid, SimIndex.pos2id s !! pos = Some docid → docid ∉ docids →
       SimIndex.pos2id s' !! pos = Some docid)
  ∧ (NoDup docids → ∀ i docid, docids !! i = Some docid →
       SimIndex.id2pos s' !! docid = Some (SimIndex.length s + i)%nat).

(** ** Later states *)

(** The states that follow [s]: [s] itself, and the state left by any later
    call of [index_documents] or [delete], whether it returned or raised. *)
Inductive later `{Backend} (s : SimIndex.t) : SimIndex.t → Prop :=
| later_now : later s s
| later_index s' fresh_docs :
    later s s' → later s (state_of (SimIndex.index_documents fresh_docs s'))
| later_delete s' docids :
    later s s' → later s (state_of (SimIndex.delete docids s')).

(** ** The server *)

(** The buffer after [documents] were added to [buffer]: the last document
    given under an id, then what the buffer held. *)
Definition buffered `{Backend} (documents : list (DocId * Doc))
    (buffer : gmap DocId Doc) : gmap DocId Doc :=
  list_to_map (reverse documents) ∪ buffer.

(** The batch a call of [index] hands to the index: the corpus when there is
    one, the buffer otherwise. *)
Definition batch_of `{Backend} (corpus : option (list (DocId * Doc)))
    (self : SimServer.t) : gmap DocId Doc :=
  match corpus with
  | Some documents => buffered documents ∅
  | None => SimServer.fresh_docs self
  end.

(** The index of a server, when there is one, is a precomputing index in a
    state its methods can reach. *)
Definition well_formed `{Backend} (self : SimServer.t) : Prop :=
  ∀ idx, SimServer.simindex self = Some idx →
         reachable idx ∧ SimIndex.precompute idx = true.

(** ** Two concrete kernels *)

Definition dot_product (x y : list Z) : Z := foldr Z.add 0 (zip_with Z.mul x y).

(** Fixed-point vectors in which 5 stands for 1.0: the integer points of the
    circle of radius 5 are the unit vectors, which normalisation leaves
    unchanged, and a score is a cosine scaled by 25. *)
Definition unit5 : Backend :=
  {| Doc := list Z; Vec := list Z; doc2vec := id; unitvec := id;
     dot := dot_product |}.

(** The cosine kernel on one feature: normalising a number gives its sign
    (zero stays zero), the score of two unit vectors is their product. *)
Definition cosine1 : Backend :=
  {| Doc := Z; Vec := Z; doc2vec := id; unitvec := Z.sgn; dot := Z.mul |}.

(** ** Scenarios *)

Module Scenario.
Definition index := SimIndex.index_documents (H:=unit5).
Definition delete_ids := SimIndex.delete (H:=unit5).

(** A precomputing index holding "a" and "b". *)
Definition ab : SimIndex.t :=
  state_of (index [("a", [3; 4]); ("b", [5; 0])] (SimIndex.init true)).
Definition ab_without_a : SimIndex.t := state_of (delete_ids ["a"] ab).
Definition ab_without_b : SimIndex.t := state_of (delete_ids ["b"] ab).
Definition ab_then_c : SimIndex.t := state_of (index [("c", [4; 3])] ab).

(** A precomputing index holding "a", "b" and "c". *)
Definition abc : SimIndex.t :=
  state_of (index [("a", [3; 4]); ("b", [5; 0]); ("c", [0; 5])]
              (SimIndex.init true)).
Definition abc_without_b : SimIndex.t := state_of (delete_ids ["b"] abc).

(** The same three documents in an index that does not precompute. *)
Definition abc_live : SimIndex.t :=
  state_of (index [("a", [3; 4]); ("b", [5; 0]); ("c", [0; 5])]
              (SimIndex.init false)).
Definition abc_live_without_b : SimIndex.t :=
  state_of (delete_ids ["b"] abc_live).

(** One document, and two documents with the same vector. *)
Definition a_only : SimIndex.t :=
  state_of (index [("a", [3; 4])] (SimIndex.init true)).
Definition twins : SimIndex.t :=
  state_of (index [("a", [3; 4]); ("b", [3; 4])] (SimIndex.init true)).
End Scenario.

(** ** More scenarios *)

Module Examples.
(** The index holding "a" and "b" after "a" was indexed again. *)
Definition ab_a_again : SimIndex.t :=
  state_of (Scenario.index [("a", [4; 3])] Scenario.ab).

(** The state a failed call leaves on the index holding "a" and the ghost
    slot of "b". *)
Definition ab_without_b_failed : SimIndex.t :=
  state_of (Scenario.index [("c", [4; 3])] Scenario.ab_without_b).

(** A server with a model, an empty buffer and the given index. *)
Definition server (idx : option (SimIndex.t (H:=unit5)))
  : SimServer.t (H:=unit5) :=
  {| SimServer.basename := "srv"; SimServer.simindex := idx;
     SimServer.simmodel := true; SimServer.fresh_docs := ∅ |}.
End Examples.

(** ** Proof automation *)

(** Runs the methods on an index whose id maps hold the single id of a
    first batch. *)
Ltac run_first_call :=
  unfold SimIndex.updateid, SimIndex.precompute_one, bind, get, modify, ret;
  repeat first
    [ progress cbn -[insert lookup delete empty]
    | rewrite lookup_empty
    | rewrite lookup_insert_eq
    | match goal with
      | |- context [[?x] !! 0%nat] => change ([x] !! 0%nat) with (Some x)
      end ].

(** * Properties *)

(** ** The operations *)

(** *** sorted *)

Section sorting.
Context {A : Type} (key : A → Z).

Lemma insert_by_perm x l : insert_by key x l ≡ₚ x :: l.
Proof.
  induction l as [|y l IH]; simpl; [done|].
  destruct (key x <=? key y); [done|].
  rewrite IH. apply Permutation_swap.
Qed.

Lemma sorted_perm l : sorted key l ≡ₚ l.
Proof.
  induction l as [|x l IH]; simpl; [done|].
  unfold sorted in *. simpl. rewrite insert_by_perm. by rewrite IH.
Qed.

Lemma insert_by_sorted x l :
  StronglySorted (λ a b, key a ≤ key b) l →
  StronglySorted (λ a b, key a ≤ key b) (insert_by key x l).
Proof.
  induction l as [|y l IH]; simpl; intros Hs.
  - repeat constructor.
  - apply StronglySorted_cons in Hs as [Hy Hl].
    destruct (Z.leb_spec (key x) (key y)).
    + apply StronglySorted_cons. split.
      * constructor; [done|].
        eapply Forall_impl; [exact Hy|]. simpl. intros; lia.
      * by apply StronglySorted_cons.
    + apply StronglySorted_cons. split; [|by apply IH].
      rewrite insert_by_perm. constructor; [lia|done].
Qed.

Lemma sorted_sorted l : StronglySorted (λ a b, key a ≤ key b) (sorted key l).
Proof.
  induction l as [|x l IH]; unfold sorted in *; simpl.
  - constructor.
  - by apply insert_by_sorted.
Qed.

Lemma sorted_length l : length (sorted key l) = length l.
Proof. by rewrite sorted_perm. Qed.
End sorting.

Lemma StronglySorted_reverse {A} (R : A → A → Prop) l :
  StronglySorted R l → StronglySorted (flip R) (reverse l).
Proof.
  induction 1 as [|x l Hl IH Hx]; [constructor|].
  rewrite reverse_cons. apply StronglySorted_app. split_and!.
  - intros a b Ha Hb. apply list_elem_of_singleton in Hb as ->.
    rewrite elem_of_reverse in Ha. unfold flip.
    rewrite Forall_forall in Hx. by apply Hx.
  - done.
  - repeat constructor.
Qed.

Lemma StronglySorted_take {A} (R : A → A → Prop) n l :
  StronglySorted R l → StronglySorted R (take n l).
Proof.
  intros Hl. rewrite <-(take_drop n l) in Hl.
  by apply StronglySorted_app_1_l in Hl.
Qed.

Lemma desc_take n l : desc l → desc (take n l).
Proof. apply StronglySorted_take. Qed.

(** *** argsort *)

Lemma argsort_perm sims : argsort sims ≡ₚ seq 0 (length sims).
Proof. apply sorted_perm. Qed.

Lemma argsort_sorted sims :
  StronglySorted (λ i j, at_pos sims i ≤ at_pos sims j) (argsort sims).
Proof. apply sorted_sorted. Qed.

Lemma argsort_reverse_sorted sims :
  StronglySorted (λ i j, at_pos sims j ≤ at_pos sims i) (reverse (argsort sims)).
Proof. apply (StronglySorted_reverse _ _ (argsort_sorted sims)). Qed.

Lemma argsort_reverse_NoDup sims : NoDup (reverse (argsort sims)).
Proof.
  rewrite reverse_Permutation, argsort_perm. apply NoDup_seq.
Qed.

Lemma elem_of_argsort_reverse sims pos :
  pos ∈ reverse (argsort sims) ↔ (pos < length sims)%nat.
Proof.
  rewrite elem_of_reverse, argsort_perm, elem_of_seq. lia.
Qed.

(** *** sims2scores *)

Lemma elem_of_live_pairs pos2id sims order docid score :
  (docid, score) ∈ live_pairs pos2id sims order ↔
  ∃ pos, pos ∈ order ∧ pos2id !! pos = Some docid ∧ score = at_pos sims pos.
Proof.
  unfold live_pairs. rewrite list_elem_of_omap. split.
  - intros (pos & Hin & Hf). exists pos. split; [done|].
    destruct (pos2id !! pos); simplify_eq/=. done.
  - intros (pos & Hin & Hp & ->). exists pos. by rewrite Hp.
Qed.

Lemma live_pairs_desc pos2id sims order :
  StronglySorted (λ i j, at_pos sims j ≤ at_pos sims i) order →
  desc (live_pairs pos2id sims order).
Proof.
  induction 1 as [|pos order Hs IH Hpos]; simpl; [constructor|].
  destruct (pos2id !! pos) as [docid|]; simpl; [|done].
  apply StronglySorted_cons. split; [|done].
  apply Forall_forall. intros [d sc] (p & Hp & _ & ->)%elem_of_live_pairs.
  simpl. rewrite Forall_forall in Hpos. by apply Hpos.
Qed.

Lemma live_pairs_NoDup pos2id sims order :
  (∀ p q docid, pos2id !! p = Some docid → pos2id !! q = Some docid → p = q) →
  NoDup order → NoDup (live_pairs pos2id sims order).*1.
Proof.
  intros Hinj. induction 1 as [|pos order Hnotin Hnd IH]; simpl; [constructor|].
  destruct (pos2id !! pos) as [docid|] eqn:Hpos; simpl; [|done].
  constructor; [|done].
  intros ([d sc] & -> & (p & Hp & Hpd & _)%elem_of_live_pairs)%list_elem_of_fmap.
  simpl in *. by rewrite (Hinj _ _ _ Hpos Hpd) in Hnotin.
Qed.

(** The loop with its [break] collects the first [TOP_SIMS] live pairs. *)
Lemma sims2scores_loop_take pos2id sims order result :
  (length result < TOP_SIMS)%nat →
  SimIndex.sims2scores_loop pos2id sims order result
  = take TOP_SIMS (result ++ live_pairs pos2id sims order).
Proof.
  revert result. induction order as [|pos order IH]; intros result Hlen; simpl.
  - rewrite app_nil_r, take_ge; [done|lia].
  - destruct (pos2id !! pos) as [docid|]; simpl; [|by apply IH].
    replace (result ++ (docid, at_pos sims pos) :: live_pairs pos2id sims order)
      with ((result ++ [(docid, at_pos sims pos)]) ++ live_pairs pos2id sims order)
      by (by rewrite <-(assoc_L (++))).
    destruct (Nat.eqb_spec (length (result ++ [(docid, at_pos sims pos)])) TOP_SIMS)
      as [Heq|Hne].
    + by rewrite <-Heq, take_app_length.
    + apply IH. rewrite length_app in *. simpl in *. lia.
Qed.

Lemma sims2scores_eq `{Backend} (self : SimIndex.t) sims :
  SimIndex.sims2scores self sims
  = take TOP_SIMS (live_pairs (SimIndex.pos2id self) (map Z.abs sims)
                     (reverse (argsort (map Z.abs sims)))).
Proof.
  unfold SimIndex.sims2scores. rewrite sims2scores_loop_take; [done|].
  unfold TOP_SIMS. simpl. lia.
Qed.

Lemma sims2scores_length `{Backend} (self : SimIndex.t) sims :
  (length (SimIndex.sims2scores self sims) ≤ TOP_SIMS)%nat.
Proof. rewrite sims2scores_eq, length_take. lia. Qed.

Lemma sims2scores_desc `{Backend} (self : SimIndex.t) sims :
  desc (SimIndex.sims2scores self sims).
Proof.
  rewrite sims2scores_eq. apply desc_take, live_pairs_desc, argsort_reverse_sorted.
Qed.

Lemma elem_of_take {A} (x : A) n l : x ∈ take n l → x ∈ l.
Proof. intros Hx. rewrite <-(take_drop n l). apply elem_of_app. by left. Qed.

Lemma sims2scores_live `{Backend} (self : SimIndex.t) sims docid score :
  (docid, score) ∈ SimIndex.sims2scores self sims →
  ∃ pos, (pos < length sims)%nat ∧ SimIndex.pos2id self !! pos = Some docid
         ∧ score = Z.abs (at_pos sims pos).
Proof.
  rewrite sims2scores_eq.
  intros (pos & Hpos & Hid & ->)%elem_of_take%elem_of_live_pairs.
  apply elem_of_argsort_reverse in Hpos. rewrite length_map in Hpos.
  exists pos. split_and!; [done..|].
  unfold at_pos. rewrite <-(map_nth Z.abs). done.
Qed.

Lemma sims2scores_NoDup `{Backend} (self : SimIndex.t) sims :
  (∀ p q docid, SimIndex.pos2id self !! p = Some docid →
                SimIndex.pos2id self !! q = Some docid → p = q) →
  NoDup (SimIndex.sims2scores self sims).*1.
Proof.
  intros Hinj. rewrite sims2scores_eq, fmap_take.
  eapply sublist_NoDup; [|apply sublist_take].
  apply live_pairs_NoDup; [done|apply argsort_reverse_NoDup].
Qed.

Lemma StronglySorted_impl {A} (R1 R2 : A → A → Prop) l :
  (∀ x y, R1 x y → R2 x y) → StronglySorted R1 l → StronglySorted R2 l.
Proof.
  intros HR. induction 1 as [|x l Hl IH Hx]; constructor; [done|].
  eapply Forall_impl; [exact Hx|]. auto.
Qed.

(** *** merge_sim *)

Lemma merge_sim_length oldsims newsims :
  (length (merge_sim oldsims newsims) ≤ TOP_SIMS)%nat.
Proof. unfold merge_sim. rewrite length_take. lia. Qed.

Lemma sorted_neg_desc (l : Sims) : desc (sorted (λ item, - item.2) l).
Proof.
  eapply StronglySorted_impl; [|apply sorted_sorted].
  simpl. intros; lia.
Qed.

Lemma merge_sim_desc oldsims newsims : desc (merge_sim oldsims newsims).
Proof. apply desc_take, sorted_neg_desc. Qed.

(** Nothing that [merge_sim] drops scores higher than something it keeps. *)
Lemma merge_sim_keeps_best oldsims newsims kept dropped :
  kept ∈ merge_sim oldsims newsims →
  dropped ∈ drop TOP_SIMS (sorted (λ item, - item.2) (oldsims ++ newsims)) →
  dropped.2 ≤ kept.2.
Proof.
  intros Hk Hd. pose proof (sorted_neg_desc (oldsims ++ newsims)) as Hs.
  rewrite <-(take_drop TOP_SIMS) in Hs.
  apply (StronglySorted_app_1_elem_of _ _ _ _ _ Hs Hk Hd).
Qed.

(** *** find_similar *)








(** *** Loops of the method monad *)

Lemma for_each_state {S A} (I : S → Prop) (xs : list A) (body : A → M S unit) :
  (∀ x s, x ∈ xs → I s → I (state_of (body x s))) →
  ∀ s, I s → I (state_of (for_each xs body s)).
Proof.
  induction xs as [|x xs IH]; intros Hbody s Hs; simpl; [done|].
  unfold bind. specialize (Hbody x s) as Hx.
  destruct (body x s) as [[] s'|e s']; simpl in *.
  - apply IH; [|apply Hx; [left|done]].
    intros y t Hy. apply Hbody. by right.
  - apply Hx; [left|done].
Qed.

Lemma for_each_Ok {S A} (I : S → Prop) (xs : list A) (body : A → M S unit) :
  (∀ x s, x ∈ xs → I s → ∃ s', body x s = Ok tt s' ∧ I s') →
  ∀ s, I s → ∃ s', for_each xs body s = Ok tt s' ∧ I s'.
Proof.
  induction xs as [|x xs IH]; intros Hbody s Hs; simpl; [by exists s|].
  unfold bind. destruct (Hbody x s) as (s' & -> & Hs'); [left|done|].
  apply IH; [|done]. intros y t Hy. apply Hbody. by right.
Qed.

Lemma for_each_Err {S A} (I : S → Prop) (xs : list A) (body : A → M S unit) x :
  x ∈ xs →
  (∀ y s, I s → I (state_of (body y s))) →
  (∀ s, I s → ∃ e s', body x s = Err e s') →
  ∀ s, I s → ∃ e s', for_each xs body s = Err e s'.
Proof.
  intros Hx Hinv Hfail. induction xs as [|y xs IH]; intros s Hs.
  - by apply elem_of_nil in Hx.
  - simpl. unfold bind. apply elem_of_cons in Hx as [<-|Hx].
    + destruct (Hfail s Hs) as (e & s' & ->). eauto.
    + specialize (Hinv y s Hs). destruct (body y s) as [[] s'|e s']; eauto.
Qed.

(** *** updateids *)

Section updateids.
Context `{Backend}.
Implicit Types s : SimIndex.t.

Lemma updateid_Ok docid s :
  sound s →
  ∃ s', SimIndex.updateid docid s = Ok tt s'
    ∧ SimIndex.id2pos s' = <[docid := SimIndex.length s]> (SimIndex.id2pos s)
    ∧ SimIndex.pos2id s'
      = <[SimIndex.length s := docid]>
          (match SimIndex.id2pos s !! docid with
           | Some old => delete old (SimIndex.pos2id s)
           | None => SimIndex.pos2id s
           end)
    ∧ SimIndex.length s' = S (SimIndex.length s)
    ∧ same_rest s s'.
Proof.
  intros [Hf Hb]. unfold SimIndex.updateid, bind, get.
  destruct (SimIndex.id2pos s !! docid) as [old|] eqn:Hold.
  - rewrite (Hf _ _ Hold). simpl. eexists. split; [reflexivity|]. by simpl.
  - simpl. eexists. split; [reflexivity|]. by simpl.
Qed.

Lemma updateid_sound docid s s' :
  sound s → SimIndex.updateid docid s = Ok tt s' → sound s'.
Proof.
  intros Hs Hrun. destruct (updateid_Ok docid s Hs)
    as (s'' & Hrun' & Hid & Hpos & Hlen & _).
  rewrite Hrun in Hrun'. injection Hrun' as <-.
  destruct Hs as [Hf Hb]. split.
  - intros d p. rewrite Hid, Hpos.
    destruct (decide (d = docid)) as [-> |Hne].
    + rewrite lookup_insert_eq. intros [= <-]. by rewrite lookup_insert_eq.
    + rewrite lookup_insert_ne by done. intros Hd.
      pose proof (Hf _ _ Hd) as Hp. pose proof (Hb _ _ Hp).
      rewrite lookup_insert_ne by lia.
      destruct (SimIndex.id2pos s !! docid) as [old|] eqn:Hold; [|done].
      rewrite lookup_delete_ne; [done|].
      intros ->. apply Hf in Hold. congruence.
  - intros p d. rewrite Hpos, Hlen.
    destruct (decide (p = SimIndex.length s)) as [-> |Hne]; [lia|].
    rewrite lookup_insert_ne by done. intros Hp.
    assert (SimIndex.pos2id s !! p = Some d) as Hp'.
    { destruct (SimIndex.id2pos s !! docid); [|done].
      by apply lookup_delete_Some in Hp as [_ ?]. }
    apply Hb in Hp'. lia.
Qed.

Lemma updateid_backward docid s s' :
  exact s → SimIndex.updateid docid s = Ok tt s' → backward s'.
Proof.
  intros [Hs Hback] Hrun. destruct (updateid_Ok docid s Hs)
    as (s'' & Hrun' & Hid & Hpos & Hlen & _).
  rewrite Hrun in Hrun'. injection Hrun' as <-.
  intros p d. rewrite Hid, Hpos.
  destruct (decide (p = SimIndex.length s)) as [-> |Hne].
  - rewrite lookup_insert_eq. intros [= <-]. by rewrite lookup_insert_eq.
  - rewrite lookup_insert_ne by done. intros Hp.
    destruct (SimIndex.id2pos s !! docid) as [old|] eqn:Hold.
    + apply lookup_delete_Some in Hp as [Hpo Hp].
      apply Hback in Hp. rewrite lookup_insert_ne; [done|]. congruence.
    + apply Hback in Hp. rewrite lookup_insert_ne; [done|]. congruence.
Qed.

(** On a sound index [updateids] cannot raise, and it keeps the index
    sound, and exact if it was. *)
Lemma updateids_Ok docids s :
  sound s →
  ∃ s', SimIndex.updateids docids s = Ok tt s' ∧ sound s' ∧ updated docids s s'
        ∧ same_rest s s' ∧ (exact s → exact s').
Proof.
  revert s. induction docids as [|d ds IH]; intros s Hs.
  - exists s. split; [done|]. split; [done|]. split; [|done].
    unfold updated. simpl. split_and!; try done.
    + intros ? []%elem_of_nil.
    + auto.
    + intros ?? []%elem_of_nil.
  - destruct (updateid_Ok d s Hs) as (s1 & Hrun1 & Hid & Hpos & Hlen & Hrest).
    pose proof (updateid_sound _ _ _ Hs Hrun1) as Hs1.
    destruct (IH s1 Hs1) as (s' & Hrun & Hs' & Hupd & Hrest' & Hex).
    exists s'. split.
    { unfold SimIndex.updateids in *. simpl. unfold bind at 1.
      by rewrite Hrun1. }
    split; [done|]. split.
    2:{ split.
        - destruct Hrest as (?&?&?), Hrest' as (?&?&?).
          unfold same_rest. split_and!; congruence.
        - intros Hexact. apply Hex. split; [done|].
          by eapply updateid_backward. }
    destruct Hupd as (Hlen' & Hnew & Hold & Hkeep & Hgone).
    destruct Hs as [Hf Hb].
    assert (∀ old, SimIndex.id2pos s !! d = Some old →
                   SimIndex.pos2id s' !! old = None) as Hd.
    { intros old Hd. pose proof (Hb _ _ (Hf _ _ Hd)) as Hlt.
      destruct (Hkeep old) as [?| ->]; [lia|done|].
      rewrite Hpos, Hd, lookup_insert_ne by lia. apply lookup_delete_eq. }
    unfold updated. split_and!.
    + rewrite Hlen', Hlen. simpl. lia.
    + intros docid Hin. destruct (decide (docid ∈ ds)) as [Hds|Hds].
      * destruct (Hnew _ Hds) as (p & ? & ?). exists p. split; [done|lia].
      * apply elem_of_cons in Hin as [-> |?]; [|done].
        exists (SimIndex.length s). split; [|lia].
        by rewrite Hold, Hid, lookup_insert_eq.
    + intros docid [Hne Hds]%not_elem_of_cons.
      by rewrite Hold, Hid, lookup_insert_ne.
    + intros p Hp. destruct (Hkeep p) as [?| ->]; [lia|by left|].
      rewrite Hpos, lookup_insert_ne by lia.
      destruct (SimIndex.id2pos s !! d) as [old|]; [|by right].
      destruct (decide (p = old)) as [-> |?].
      * left. apply lookup_delete_eq.
      * right. by apply lookup_delete_ne.
    + intros docid old Hin Hdoc.
      destruct (decide (docid = d)) as [-> |Hne]; [by apply Hd|].
      apply elem_of_cons in Hin as [?|Hin]; [done|].
      apply (Hgone docid); [done|]. by rewrite Hid, lookup_insert_ne.
Qed.
End updateids.

(** *** Dictionaries *)

Lemma lookup_foldl_delete {V} (m : gmap DocId V) (ks : list DocId) k :
  foldl (λ m k, delete k m) m ks !! k = if decide (k ∈ ks) then None else m !! k.
Proof.
  revert m. induction ks as [|k' ks IH]; intros m; simpl.
  - done.
  - rewrite IH. destruct (decide (k ∈ ks)) as [Hin|Hnotin].
    + rewrite decide_True; [done|by right].
    + destruct (decide (k = k')) as [->|Hne].
      * rewrite decide_True by left. apply lookup_delete_eq.
      * rewrite decide_False by (by intros [?|?]%elem_of_cons).
        by apply lookup_delete_ne.
Qed.

Lemma foldl_inverse_lookup (l : list (DocId * nat)) (acc : gmap nat DocId)
    pos docid :
  NoDup l.*2 →
  (foldl (λ acc kv, <[(kv.2) := (kv.1)]> acc) acc l !! pos = Some docid)
  ↔ ((docid, pos) ∈ l ∨ ((pos ∉ l.*2) ∧ (acc !! pos = Some docid))).
Proof.
  revert acc. induction l as [|[k v] l IH]; intros acc Hnd; simpl.
  - split; [intros; right; split; [apply not_elem_of_nil|done]|].
    by intros [[]%elem_of_nil|[_ ?]].
  - apply NoDup_cons in Hnd as [Hv Hnd]. rewrite IH by done. clear IH.
    rewrite elem_of_cons, not_elem_of_cons.
    destruct (decide (pos = v)) as [->|Hne].
    + rewrite lookup_insert_eq. split.
      * intros [Hin|[_ [= ->]]]; [|by left; left].
        destruct Hv. apply list_elem_of_fmap. by exists (docid, v).
      * intros [[[= -> ]|Hin]|[[? _] _]]; [by right|..|done].
        destruct Hv. apply list_elem_of_fmap. by exists (docid, v).
    + rewrite lookup_insert_ne by done. split.
      * intros [?|[? ?]]; [by left; right|by right].
      * intros [[[= _ ?]|?]|[[_ ?] ?]]; [done|by left|by right].
Qed.

(** The inverse of an injective dictionary. *)
Lemma inverse_dict_lookup (d : gmap DocId nat) pos docid :
  (∀ k1 k2 v, d !! k1 = Some v → d !! k2 = Some v → k1 = k2) →
  SimIndex.inverse_dict d !! pos = Some docid ↔ d !! docid = Some pos.
Proof.
  intros Hinj. unfold SimIndex.inverse_dict. rewrite foldl_inverse_lookup.
  - rewrite elem_of_map_to_list, lookup_empty.
    split; [by intros [?|[_ ?]]|by left].
  - apply NoDup_fmap_2_strong; [|apply NoDup_map_to_list].
    intros [k1 v1] [k2 v2] H1%elem_of_map_to_list H2%elem_of_map_to_list.
    simpl. intros <-. f_equal. by eapply Hinj.
Qed.

(** Inverse dictionaries have the same number of entries. *)
Lemma inverse_size (m1 : gmap DocId nat) (m2 : gmap nat DocId) :
  (∀ k v, m1 !! k = Some v ↔ m2 !! v = Some k) → size m2 = size m1.
Proof.
  intros Hinv. rewrite <-!length_map_to_list.
  rewrite <-(length_fmap prod_swap (map_to_list m1)).
  apply Permutation_length, NoDup_Permutation.
  - apply NoDup_map_to_list.
  - apply NoDup_fmap; [apply _|apply NoDup_map_to_list].
  - intros [pos docid]. rewrite elem_of_map_to_list, list_elem_of_fmap. split.
    + intros Hpos%Hinv. exists (docid, pos). by rewrite elem_of_map_to_list.
    + intros ([k v] & [= -> ->] & Hk%elem_of_map_to_list). by apply Hinv.
Qed.

(** *** delete *)

Section delete.
Context `{Backend}.
Implicit Types s : SimIndex.t.

Lemma delete_one_eq docid s :
  SimIndex.delete_one docid s
  = match SimIndex.id2pos s !! docid with
    | Some _ => Ok tt (SimIndex.set_id2pos (delete docid) s)
    | None => Err (KeyError_docid docid) s
    end.
Proof.
  unfold SimIndex.delete_one, bind, get.
  by destruct (SimIndex.id2pos s !! docid).
Qed.

Lemma removed_nil s : removed [] s s.
Proof. by unfold removed, same_rest. Qed.

Lemma removed_cons docid pre s s' :
  is_Some (SimIndex.id2pos s !! docid) →
  removed pre (SimIndex.set_id2pos (delete docid) s) s' →
  removed (docid :: pre) s s'.
Proof.
  unfold removed, same_rest. simpl. intros Hd (? & Hsize & ? & ? & ? & ? & ?).
  rewrite map_size_delete_Some in Hsize by done.
  assert (size (SimIndex.id2pos s) ≠ 0%nat).
  { destruct Hd as [p Hd]. intros Hz%map_size_empty_inv.
    by rewrite Hz, lookup_empty in Hd. }
  split_and!; [done|lia|done..].
Qed.

(** The first loop of [delete]: it stops at the first id that is absent
    when its turn comes, having removed the ids before it. *)
Lemma delete_loop docids s :
  match for_each docids SimIndex.delete_one s with
  | Ok _ s' => removed docids s s'
  | Err e s' =>
      ∃ pre docid post,
        docids = pre ++ docid :: post ∧ e = KeyError_docid docid
        ∧ removed pre s s' ∧ SimIndex.id2pos s' !! docid = None
  end.
Proof.
  revert s. induction docids as [|d ds IH]; intros s; simpl.
  - apply removed_nil.
  - unfold bind. rewrite delete_one_eq.
    destruct (SimIndex.id2pos s !! d) as [p|] eqn:Hd.
    + specialize (IH (SimIndex.set_id2pos (delete d) s)).
      destruct (for_each ds _ _) as [[] s'|e s'].
      * by apply removed_cons.
      * destruct IH as (pre & k & post & -> & -> & Hrem & Hk).
        exists (d :: pre), k, post.
        split_and!; first [done | by apply removed_cons].
    + exists [], d, ds. split_and!; first [done | apply removed_nil].
Qed.

Lemma delete_loop_missing docids s docid :
  docid ∈ docids → SimIndex.id2pos s !! docid = None →
  ∃ e s', for_each docids SimIndex.delete_one s = Err e s'.
Proof.
  revert s. induction docids as [|d ds IH]; intros s Hin Hnone.
  - by apply elem_of_nil in Hin.
  - simpl. unfold bind. rewrite delete_one_eq.
    destruct (SimIndex.id2pos s !! d) as [p|] eqn:Hd; [|eauto].
    apply elem_of_cons in Hin as [-> |Hin]; [congruence|].
    apply IH; [done|]. simpl. by apply lookup_delete_None; right.
Qed.

Lemma delete_eq docids s :
  SimIndex.delete docids s
  = match for_each docids SimIndex.delete_one s with
    | Ok _ s1 =>
        let s2 :=
          SimIndex.set_pos2id
            (λ _, SimIndex.inverse_dict (SimIndex.id2pos s1)) s1 in
        if Nat.eqb (size (SimIndex.pos2id s2)) (size (SimIndex.id2pos s2))
        then Ok tt s2
        else Err (AssertionError "duplicate ids or positions detected") s2
    | Err e s' => Err e s'
    end.
Proof.
  unfold SimIndex.delete, bind, get, modify.
  destruct (for_each docids SimIndex.delete_one s) as [[] s1|e s1]; [|done].
  simpl. by destruct (Nat.eqb _ _).
Qed.

Lemma removed_lookup pre s s' docid :
  removed pre s s' →
  SimIndex.id2pos s' !! docid
  = if decide (docid ∈ pre) then None else SimIndex.id2pos s !! docid.
Proof. intros [-> _]. apply lookup_foldl_delete. Qed.

Lemma removed_lookup_Some pre s s' docid pos :
  removed pre s s' → SimIndex.id2pos s' !! docid = Some pos →
  SimIndex.id2pos s !! docid = Some pos.
Proof.
  intros Hrem. rewrite (removed_lookup _ _ _ _ Hrem). by case_decide.
Qed.

Lemma exact_inverse_maps s : exact s → inverse_maps s.
Proof.
  intros [[Hf _] Hb]. split; [done|].
  apply inverse_size. split; [apply Hf|apply Hb].
Qed.

(** A [delete] that returns normally from a sound state has removed the
    ids and rebuilt [pos2id] as the exact inverse of [id2pos]. *)
Lemma delete_Ok docids s s' :
  sound s → SimIndex.delete docids s = Ok tt s' →
  exact s'
  ∧ SimIndex.id2pos s'
    = foldl (λ m k, delete k m) (SimIndex.id2pos s) docids
  ∧ SimIndex.length s' = SimIndex.length s ∧ same_rest s s'.
Proof.
  intros [Hf Hb]. rewrite delete_eq. pose proof (delete_loop docids s) as Hloop.
  destruct (for_each docids SimIndex.delete_one s) as [[] s1|e s1]; [|done].
  simpl. destruct (Nat.eqb _ _); [|done]. intros [= <-].
  assert (∀ pos docid,
    SimIndex.inverse_dict (SimIndex.id2pos s1) !! pos = Some docid
    ↔ SimIndex.id2pos s1 !! docid = Some pos) as Hinv.
  { intros pos docid. apply inverse_dict_lookup. intros k1 k2 v H1 H2.
    apply (removed_lookup_Some _ _ _ _ _ Hloop), Hf in H1, H2. congruence. }
  destruct Hloop as (Hid & _ & Hpos & Hlen & Hrest).
  split_and!; try done. split; [split|].
  - intros docid pos. simpl. by rewrite Hinv.
  - intros pos docid. simpl. rewrite Hinv, Hlen. intros Hd. apply (Hb pos docid), Hf.
    rewrite Hid, lookup_foldl_delete in Hd. by case_decide.
  - intros pos docid. simpl. by rewrite Hinv.
Qed.

(** From a sound state the assertion of [delete] cannot fail. *)
Lemma delete_no_assertion docids s msg s' :
  sound s → SimIndex.delete docids s ≠ Err (AssertionError msg) s'.
Proof.
  intros [Hf Hb]. rewrite delete_eq. pose proof (delete_loop docids s) as Hloop.
  destruct (for_each docids SimIndex.delete_one s) as [[] s1|e s1].
  - simpl. rewrite (inverse_size (SimIndex.id2pos s1)
      (SimIndex.inverse_dict (SimIndex.id2pos s1))), Nat.eqb_refl; [done|].
    intros docid pos. symmetry. apply inverse_dict_lookup. intros k1 k2 v H1 H2.
    apply (removed_lookup_Some _ _ _ _ _ Hloop), Hf in H1, H2. congruence.
  - destruct Hloop as (? & ? & ? & _ & -> & _). done.
Qed.
End delete.

(** *** The passes of index_documents *)

Section passes.
Context `{Backend}.
Implicit Types s : SimIndex.t.

Lemma same_identity_refl s : same_identity s s.
Proof. by unfold same_identity. Qed.

Lemma same_identity_trans s1 s2 s3 :
  same_identity s1 s2 → same_identity s2 s3 → same_identity s1 s3.
Proof.
  unfold same_identity. intros (?&?&?&?&?) (?&?&?&?&?).
  split_and!; congruence.
Qed.

Lemma same_identity_sound s s' : same_identity s s' → sound s → sound s'.
Proof.
  intros (Hid & Hpos & Hlen & _) [Hf Hb]. split.
  - intros docid pos. rewrite Hid, Hpos. apply Hf.
  - intros pos docid. rewrite Hpos, Hlen. apply Hb.
Qed.

Lemma same_identity_exact s s' : same_identity s s' → exact s → exact s'.
Proof.
  intros Hsame [Hs Hback]. split; [by eapply same_identity_sound|].
  destruct Hsame as (Hid & Hpos & _).
  intros pos docid. rewrite Hid, Hpos. apply Hback.
Qed.

Lemma cache_ok_insert s docid l :
  cache_ok s → (length l ≤ TOP_SIMS)%nat → desc l →
  cache_ok (SimIndex.set_id2sims <[docid := l]> s).
Proof.
  intros Hc Hlen Hdesc d l'. simpl.
  destruct (decide (d = docid)) as [->|Hne].
  - rewrite lookup_insert_eq. by intros [= <-].
  - rewrite lookup_insert_ne by done. apply Hc.
Qed.

Lemma update_old_one_eq tmpindex pv s :
  SimIndex.update_old_one tmpindex pv s
  = match SimIndex.pos2id s !! pv.1 with
    | None => Err (KeyError_pos pv.1) s
    | Some docid =>
        match SimIndex.id2sims s !! docid with
        | None => Err (KeyError_docid docid) s
        | Some oldsims =>
            Ok tt (SimIndex.set_id2sims
                     <[docid := merge_sim oldsims
                        (SimIndex.sims2scores s
                           (Similarity.getitem false tmpindex pv.2))]> s)
        end
    end.
Proof.
  unfold SimIndex.update_old_one, bind, get.
  destruct (SimIndex.pos2id s !! pv.1) as [docid|]; [simpl|done].
  by destruct (SimIndex.id2sims s !! docid).
Qed.

Lemma update_old_one_state tmpindex pv s :
  let s' := state_of (SimIndex.update_old_one tmpindex pv s) in
  same_identity s s' ∧ (cache_ok s → cache_ok s').
Proof.
  rewrite update_old_one_eq.
  destruct (SimIndex.pos2id s !! pv.1) as [docid|];
    [|by split; [apply same_identity_refl|]].
  destruct (SimIndex.id2sims s !! docid) as [oldsims|];
    [|by split; [apply same_identity_refl|]].
  simpl. split; [by unfold same_identity|].
  intros Hc. apply cache_ok_insert;
    [done|apply merge_sim_length|apply merge_sim_desc].
Qed.

(** The pass over the old documents, whether it completes or raises,
    touches nothing but the SimilarityCache, whose entries stay capped and
    sorted. *)
Lemma update_old_state tmpindex stored s :
  let s' := state_of (SimIndex.update_old tmpindex stored s) in
  same_identity s s' ∧ (cache_ok s → cache_ok s').
Proof.
  apply (for_each_state
           (λ s', same_identity s s' ∧ (cache_ok s → cache_ok s'))).
  - intros pv t _ [Hsame Hc].
    destruct (update_old_one_state tmpindex pv t) as [Hsame' Hc'].
    split; [by eapply same_identity_trans|auto].
  - split; [apply same_identity_refl|done].
Qed.

(** A ghost slot makes the pass over the old documents raise. *)
Lemma update_old_ghost tmpindex stored s pos :
  (pos < length stored)%nat → SimIndex.pos2id s !! pos = None →
  ∃ e s', SimIndex.update_old tmpindex stored s = Err e s'.
Proof.
  intros [vec Hvec]%lookup_lt_is_Some_2 Hghost.
  apply (for_each_Err (λ s', SimIndex.pos2id s' = SimIndex.pos2id s)
           _ _ (pos, vec)).
  - by apply (elem_of_lookup_imap_2 (λ pos vec, (pos, vec))).
  - intros pv t <-.
    by destruct (update_old_one_state tmpindex pv t) as [(_ & ? & _) _].
  - intros t Ht. rewrite update_old_one_eq. simpl. rewrite Ht, Hghost. eauto.
  - done.
Qed.

Lemma precompute_one_state docids pv s :
  is_Some (SimIndex.qindex s) → is_Some (docids !! pv.1) →
  ∃ s', SimIndex.precompute_one docids pv s = Ok tt s'
        ∧ SimIndex.qindex s' = SimIndex.qindex s
        ∧ same_identity s s' ∧ (cache_ok s → cache_ok s').
Proof.
  intros [q Hq] [docid Hd]. unfold SimIndex.precompute_one, bind, get.
  rewrite Hq. simpl. rewrite Hd. simpl. eexists. split; [reflexivity|].
  split; [done|]. split.
  - unfold same_identity, stored_vectors. by simpl.
  - intros Hc. apply cache_ok_insert;
      [done|apply sims2scores_length|apply sims2scores_desc].
Qed.

(** The pass over the new documents cannot raise. *)
Lemma precompute_new_Ok docids tmpindex s :
  is_Some (SimIndex.qindex s) → length tmpindex = length docids →
  ∃ s', SimIndex.precompute_new docids tmpindex s = Ok tt s'
        ∧ same_identity s s' ∧ (cache_ok s → cache_ok s').
Proof.
  intros Hq Hlen.
  destruct (for_each_Ok
    (λ s', SimIndex.qindex s' = SimIndex.qindex s
           ∧ same_identity s s' ∧ (cache_ok s → cache_ok s'))
    (imap (λ pos vec, (pos, vec)) (Similarity.iter_chunks tmpindex))
    (SimIndex.precompute_one docids)) with s as (s' & Hrun & _ & Hsame & Hc).
  - intros pv t (i & vec & -> & Hi)%elem_of_lookup_imap_1 (Hqt & Hsame & Hc).
    destruct (precompute_one_state docids (i, vec) t) as (t' & -> & ? & ? & ?).
    + by rewrite Hqt.
    + apply lookup_lt_is_Some_2. apply lookup_lt_Some in Hi.
      unfold Similarity.iter_chunks in Hi. simpl. lia.
    + exists t'. split; [done|]. split; [congruence|].
      split; [by eapply same_identity_trans|auto].
  - split; [done|]. split; [apply same_identity_refl|done].
  - by exists s'.
Qed.
End passes.

(** *** index_documents *)

Section index_documents.
Context `{Backend}.
Implicit Types s : SimIndex.t.

Lemma with_qindex_spec s :
  same_identity s (with_qindex s)
  ∧ SimIndex.id2sims (with_qindex s) = SimIndex.id2sims s
  ∧ SimIndex.qindex (with_qindex s) = Some (stored_vectors s).
Proof.
  unfold with_qindex, same_identity, stored_vectors, Similarity.empty.
  destruct (SimIndex.qindex s) as [q|] eqn:Hq; simpl; rewrite ?Hq;
    split_and!; done.
Qed.

Lemma index_documents_unfold fresh_docs s :
  SimIndex.index_documents fresh_docs s
  = let s0 := with_qindex s in
    let docids := fresh_docs.*1 in
    let vectors := map doc2vec fresh_docs.*2 in
    let q := stored_vectors s in
    if negb (SimIndex.precompute s) then
      SimIndex.updateids docids
        (SimIndex.set_qindex (Similarity.add_documents vectors q) s0)
    else
      let tmpindex := Similarity.add_documents vectors Similarity.empty in
      match SimIndex.update_old tmpindex q s0 with
      | Ok _ s1 =>
          match SimIndex.updateids docids
                  (SimIndex.set_qindex
                     (Similarity.add_documents tmpindex q) s1) with
          | Ok _ s3 => SimIndex.precompute_new docids tmpindex s3
          | Err e s' => Err e s'
          end
      | Err e s' => Err e s'
      end.
Proof.
  unfold SimIndex.index_documents, with_qindex, stored_vectors, bind, get,
    modify, ret, Similarity.iter_chunks.
  destruct (SimIndex.qindex s) as [q|] eqn:Hq; simpl; rewrite ?Hq; simpl.
  all: destruct (SimIndex.precompute s); simpl; [|done].
  all: reflexivity.
Qed.

Lemma updated_same_identity docids s1 s2 s3 s4 :
  same_identity s1 s2 → same_identity s3 s4 →
  updated docids s2 s3 → updated docids s1 s4.
Proof.
  intros (Hid & Hpos & Hlen & _) (Hid' & Hpos' & Hlen' & _).
  unfold updated. rewrite Hid, Hpos, Hlen, Hid', Hpos', Hlen'. done.
Qed.

Lemma sound_set_qindex q s : sound s → sound (SimIndex.set_qindex q s).
Proof. done. Qed.

Lemma exact_set_qindex q s : exact s → exact (SimIndex.set_qindex q s).
Proof. done. Qed.

Lemma cache_ok_ext s s' :
  SimIndex.id2sims s' = SimIndex.id2sims s → cache_ok s → cache_ok s'.
Proof. unfold cache_ok. by intros ->. Qed.

(** What a call of [index_documents] does to a sound index. *)
Lemma index_documents_spec fresh_docs s :
  sound s →
  match SimIndex.index_documents fresh_docs s with
  | Ok _ s' =>
      sound s' ∧ updated fresh_docs.*1 s s'
      ∧ stored_vectors s'
        = stored_vectors s ++ stored_batch (SimIndex.precompute s) fresh_docs
      ∧ SimIndex.precompute s' = SimIndex.precompute s
      ∧ (exact s → exact s') ∧ (cache_ok s → cache_ok s')
  | Err e s' =>
      same_identity s s' ∧ (cache_ok s → cache_ok s')
      ∧ SimIndex.precompute s = true
  end.
Proof.
  intros Hs. rewrite index_documents_unfold. cbv zeta.
  destruct (with_qindex_spec s) as (Hsame0 & Hsims0 & Hq0).
  pose proof (same_identity_sound _ _ Hsame0 Hs) as Hs0.
  destruct (SimIndex.precompute s) eqn:Hpre; simpl.
  - (* precomputing *)
    match goal with
    | |- context [SimIndex.update_old ?tmp ?q ?s0] =>
        pose proof (update_old_state tmp q s0) as [Hsame1 Hc1];
        destruct (SimIndex.update_old tmp q s0) as [[] s1|e s1]
    end; cbn [state_of] in Hsame1, Hc1.
    + pose proof (same_identity_sound _ _ Hsame1 Hs0) as Hs1.
      match goal with
      | |- context [SimIndex.updateids ?d ?st] =>
          destruct (updateids_Ok d st)
            as (s3 & Hrun3 & Hs3 & Hupd & (Hsims3 & Hpre3 & Hq3) & Hex3);
            [by apply sound_set_qindex|rewrite Hrun3]
      end.
      match goal with
      | |- context [SimIndex.precompute_new ?d ?tmp ?st] =>
          destruct (precompute_new_Ok d tmp st)
            as (s' & Hrun' & Hsame' & Hc')
      end.
      { rewrite Hq3. by eexists. }
      { unfold Similarity.add_documents, Similarity.empty. simpl.
        by rewrite !length_fmap. }
      rewrite Hrun'.
      assert (same_identity s s1) as Hsame01
        by (by eapply same_identity_trans).
      split_and!.
      * by eapply same_identity_sound.
      * exact (updated_same_identity _ _ _ _ _ Hsame01 Hsame' Hupd).
      * destruct Hsame' as (_ & _ & _ & -> & _).
        unfold stored_vectors at 1. rewrite Hq3. done.
      * destruct Hsame' as (_ & _ & _ & _ & ->). rewrite Hpre3. simpl.
        by destruct Hsame01 as (_ & _ & _ & _ & ->).
      * intros Hex. eapply same_identity_exact; [done|]. apply Hex3.
        apply exact_set_qindex. by eapply same_identity_exact.
      * intros Hc. apply Hc'. eapply cache_ok_ext; [exact Hsims3|].
        apply (cache_ok_ext s1); [done|]. apply Hc1.
        by eapply cache_ok_ext.
    + split_and!; [by eapply same_identity_trans| |done].
      intros Hc. apply Hc1. by eapply cache_ok_ext.
  - (* not precomputing *)
    match goal with
    | |- context [SimIndex.updateids ?d ?st] =>
        destruct (updateids_Ok d st)
          as (s' & Hrun' & Hs' & Hupd & (Hsims' & Hpre' & Hq') & Hex');
          [by apply sound_set_qindex|rewrite Hrun']
    end.
    split_and!.
    + done.
    + exact (updated_same_identity _ _ _ _ _ Hsame0 (same_identity_refl _) Hupd).
    + unfold stored_vectors at 1. by rewrite Hq'.
    + rewrite Hpre'. simpl. by destruct Hsame0 as (_ & _ & _ & _ & ->).
    + intros Hex. apply Hex', exact_set_qindex.
      by eapply same_identity_exact.
    + intros Hc. eapply cache_ok_ext; [exact Hsims'|].
      by eapply cache_ok_ext.
Qed.
End index_documents.

(** *** Reachable states *)

Section reachable.
Context `{Backend}.
Implicit Types s : SimIndex.t.

Lemma sound_init precompute : exact (SimIndex.init precompute).
Proof. by split; [split|]; intros ??; simpl; rewrite lookup_empty. Qed.

Lemma cache_ok_init precompute : cache_ok (SimIndex.init precompute).
Proof. intros ??. simpl. by rewrite lookup_empty. Qed.

Lemma removed_sound pre s s' : removed pre s s' → sound s → sound s'.
Proof.
  intros Hrem [Hf Hb]. pose proof Hrem as (_ & _ & Hpos & Hlen & _). split.
  - intros docid pos Hd. rewrite Hpos.
    by apply Hf, (removed_lookup_Some _ _ _ _ _ Hrem).
  - intros pos docid. rewrite Hpos, Hlen. apply Hb.
Qed.

Lemma delete_rebuilt pre s s1 :
  removed pre s s1 → sound s →
  exact (SimIndex.set_pos2id
           (λ _, SimIndex.inverse_dict (SimIndex.id2pos s1)) s1).
Proof.
  intros Hrem [Hf Hb].
  assert (∀ pos docid,
    SimIndex.inverse_dict (SimIndex.id2pos s1) !! pos = Some docid
    ↔ SimIndex.id2pos s1 !! docid = Some pos) as Hinv.
  { intros pos docid. apply inverse_dict_lookup. intros k1 k2 v H1 H2.
    apply (removed_lookup_Some _ _ _ _ _ Hrem), Hf in H1, H2. congruence. }
  destruct Hrem as (Hid & _ & Hpos & Hlen & Hrest).
  split; [split|].
  - intros docid pos. simpl. by rewrite Hinv.
  - intros pos docid. simpl. rewrite Hinv, Hlen. intros Hd.
    apply (Hb pos docid), Hf.
    rewrite Hid, lookup_foldl_delete in Hd. by case_decide.
  - intros pos docid. simpl. by rewrite Hinv.
Qed.

Lemma delete_state docids s :
  sound s →
  let s' := state_of (SimIndex.delete docids s) in
  sound s' ∧ SimIndex.id2sims s' = SimIndex.id2sims s.
Proof.
  intros Hs. rewrite delete_eq. pose proof (delete_loop docids s) as Hloop.
  destruct (for_each docids SimIndex.delete_one s) as [[] s1|e s1].
  - pose proof (delete_rebuilt _ _ _ Hloop Hs) as [Hs2 _].
    destruct Hloop as (_ & _ & _ & _ & Hsims & _).
    cbv zeta. by destruct (Nat.eqb _ _).
  - destruct Hloop as (pre & k & post & _ & _ & Hrem & _). simpl.
    split; [by eapply removed_sound|]. by destruct Hrem as (_&_&_&_&?&_).
Qed.

(** What holds in every reachable state. *)
Lemma reachable_sound_cache s : reachable s → sound s ∧ cache_ok s.
Proof.
  induction 1 as [pre|s docs Hr [Hs Hc]|s ids Hr [Hs Hc]].
  - split; [apply sound_init|apply cache_ok_init].
  - pose proof (index_documents_spec docs s Hs) as Hspec.
    destruct (SimIndex.index_documents docs s) as [[] s'|e s']; simpl.
    + destruct Hspec as (? & _ & _ & _ & _ & ?). auto.
    + destruct Hspec as (? & ? & _). split; [by eapply same_identity_sound|auto].
  - destruct (delete_state ids s Hs) as [? Hsims]. split; [done|].
    by eapply cache_ok_ext.
Qed.

Lemma consistent_exact s : consistent s → exact s.
Proof.
  induction 1 as [pre|s docs Hr Hex|s ids s' Hr Hex Hrun].
  - apply sound_init.
  - pose proof (index_documents_spec docs s (proj1 Hex)) as Hspec.
    destruct (SimIndex.index_documents docs s) as [[] s'|e s']; simpl.
    + destruct Hspec as (_ & _ & _ & _ & ? & _). auto.
    + destruct Hspec as (? & _). by eapply same_identity_exact.
  - by destruct (delete_Ok ids s s' (proj1 Hex) Hrun).
Qed.

Lemma consistent_reachable s : consistent s → reachable s.
Proof.
  induction 1 as [pre|s docs Hr IH|s ids s' Hr IH Hrun].
  - constructor.
  - by constructor.
  - replace s' with (state_of (SimIndex.delete ids s)) by (by rewrite Hrun).
    by constructor.
Qed.

(** Under soundness, the two forms of the inverse property agree. *)
Lemma inverse_maps_exact s : sound s → inverse_maps s → exact s.
Proof.
  intros Hs [Hf Hsize]. split; [done|]. intros pos docid Hpos.
  assert (∀ k1 k2 v, SimIndex.id2pos s !! k1 = Some v →
                     SimIndex.id2pos s !! k2 = Some v → k1 = k2) as Hinj.
  { intros k1 k2 v H1%Hf H2%Hf. congruence. }
  assert (SimIndex.inverse_dict (SimIndex.id2pos s) = SimIndex.pos2id s) as Heq.
  { apply map_subseteq_size_eq.
    - apply map_subseteq_spec. intros p d Hp.
      by apply Hf, inverse_dict_lookup.
    - rewrite Hsize. apply Nat.eq_le_incl. symmetry. apply inverse_size.
      intros d p. symmetry. by apply inverse_dict_lookup. }
  rewrite <-Heq in Hpos. by apply inverse_dict_lookup in Hpos.
Qed.

End reachable.

(** *** Frames, and the cache passes of index_documents *)

Section frames.
Context `{Backend}.
Implicit Types s : SimIndex.t.

(** [delete] never touches the counter, the store or the cache. *)
Lemma delete_frame docids s :
  let s' := state_of (SimIndex.delete docids s) in
  SimIndex.length s' = SimIndex.length s ∧ same_rest s s'.
Proof.
  rewrite delete_eq. pose proof (delete_loop docids s) as Hloop.
  destruct (for_each docids SimIndex.delete_one s) as [[] s1|e s1].
  - destruct Hloop as (_ & _ & _ & Hlen & Hrest). cbv zeta.
    by destruct (Nat.eqb _ _).
  - by destruct Hloop as (pre & k & post & _ & _ & (_&_&_&?&?) & _).
Qed.

Lemma stored_vectors_same_rest s s' :
  same_rest s s' → stored_vectors s' = stored_vectors s.
Proof. intros (_ & _ & Hq). unfold stored_vectors. by rewrite Hq. Qed.

Lemma length_stored_batch precompute (fresh_docs : list (DocId * Doc)) :
  length (stored_batch precompute fresh_docs) = length fresh_docs.
Proof.
  unfold stored_batch. destruct precompute; by rewrite ?length_map, ?length_fmap.
Qed.

Lemma reachable_aligned s : reachable s → aligned s.
Proof.
  unfold aligned.
  induction 1 as [pre|s docs Hr IH|s ids Hr IH]; [done|..].
  - pose proof (index_documents_spec docs s
                  (proj1 (reachable_sound_cache s Hr))) as Hspec.
    destruct (SimIndex.index_documents docs s) as [[] s'|e s']; simpl.
    + destruct Hspec as (_ & (Hlen & _) & -> & _).
      rewrite Hlen, length_app, length_stored_batch, length_fmap. lia.
    + destruct Hspec as ((_ & _ & -> & -> & _) & _). done.
  - destruct (delete_frame ids s) as [-> Hrest].
    by rewrite (stored_vectors_same_rest _ _ Hrest).
Qed.

Lemma index_documents_precompute docs s :
  sound s →
  SimIndex.precompute (state_of (SimIndex.index_documents docs s))
  = SimIndex.precompute s.
Proof.
  intros Hs. pose proof (index_documents_spec docs s Hs) as Hspec.
  destruct (SimIndex.index_documents docs s) as [[] s'|e s']; simpl.
  - by destruct Hspec as (_ & _ & _ & ? & _).
  - by destruct Hspec as ((_&_&_&_&?) & _).
Qed.
End frames.

Section steps.
Context `{Backend}.
Implicit Types s : SimIndex.t.

(** How a call of [index_documents] on a precomputing index unfolds. *)
Lemma index_documents_steps fresh_docs s :
  sound s → SimIndex.precompute s = true →
  let docids := fresh_docs.*1 in
  let tmpindex := map unitvec (map doc2vec fresh_docs.*2) in
  match SimIndex.update_old tmpindex (stored_vectors s) (with_qindex s) with
  | Ok _ s1 =>
      ∃ s3 s4,
        SimIndex.updateids docids
          (SimIndex.set_qindex (stored_vectors s ++ map unitvec tmpindex) s1)
        = Ok tt s3
        ∧ SimIndex.precompute_new docids tmpindex s3 = Ok tt s4
        ∧ SimIndex.index_documents fresh_docs s = Ok tt s4
        ∧ sound s1 ∧ same_identity s s1
        ∧ SimIndex.id2sims s3 = SimIndex.id2sims s1
        ∧ same_identity s3 s4
        ∧ SimIndex.qindex s3
          = Some (stored_vectors s ++ map unitvec tmpindex)
  | Err e s1 => SimIndex.index_documents fresh_docs s = Err e s1
  end.
Proof.
  intros Hs Hpre. rewrite index_documents_unfold. cbv zeta. rewrite Hpre.
  simpl. unfold Similarity.add_documents, Similarity.empty,
    Similarity.iter_chunks. simpl.
  destruct (with_qindex_spec s) as (Hsame0 & _ & _).
  pose proof (same_identity_sound _ _ Hsame0 Hs) as Hs0.
  match goal with
  | |- context [SimIndex.update_old ?tmp ?q ?s0] =>
      pose proof (update_old_state tmp q s0) as [Hsame1 _];
      destruct (SimIndex.update_old tmp q s0) as [[] s1|e s1]
  end; cbn [state_of] in Hsame1; [|done].
  pose proof (same_identity_sound _ _ Hsame1 Hs0) as Hs1.
  match goal with
  | |- context [SimIndex.updateids ?d ?st] =>
      destruct (updateids_Ok d st (sound_set_qindex _ _ Hs1))
        as (s3 & Hrun3 & _ & _ & Hrest3 & _)
  end.
  rewrite Hrun3.
  match goal with
  | |- context [SimIndex.precompute_new ?d ?tmp ?st] =>
      destruct (precompute_new_Ok d tmp st) as (s4 & Hrun4 & Hsame4 & _)
  end.
  { destruct Hrest3 as (_ & _ & ->). by eexists. }
  { by rewrite ?length_map, ?length_fmap. }
  rewrite Hrun4. exists s3, s4. split_and!; try done.
  - by eapply same_identity_trans.
  - by destruct Hrest3 as (-> & _).
  - by destruct Hrest3 as (_ & _ & ->).
Qed.
End steps.

Lemma list_lookup_map {A B} (f : A → B) (l : list A) (i : nat) :
  map f l !! i = f <$> l !! i.
Proof. exact (list_lookup_fmap f l i). Qed.

Lemma lookup_tmpindex `{Backend} (fresh_docs : list (DocId * Doc)) i docid doc :
  fresh_docs !! i = Some (docid, doc) →
  map unitvec (map doc2vec fresh_docs.*2) !! i = Some (unitvec (doc2vec doc)).
Proof.
  intros Hi. by rewrite list_lookup_map, list_lookup_map, list_lookup_fmap, Hi.
Qed.

Section new_entries.
Context `{Backend}.
Implicit Types s : SimIndex.t.

Lemma sims2scores_ext s s' sims :
  SimIndex.pos2id s' = SimIndex.pos2id s →
  SimIndex.sims2scores s' sims = SimIndex.sims2scores s sims.
Proof. unfold SimIndex.sims2scores. by intros ->. Qed.

(** The loop over the new documents, on any list of positions: an id that
    a position of the list selects gets the scores of the vector at that
    position, as long as no later position selects the same id. *)
Lemma precompute_loop_entries docids q (pvs : list (nat * Vec)) s s' :
  SimIndex.qindex s = Some q →
  NoDup (omap (λ pv : nat * Vec, docids !! pv.1) pvs) →
  for_each pvs (SimIndex.precompute_one docids) s = Ok tt s' →
  ∀ pv docid, pv ∈ pvs → docids !! pv.1 = Some docid →
    SimIndex.id2sims s' !! docid
    = Some (SimIndex.sims2scores s (Similarity.getitem false q pv.2)).
Proof.
  revert s. induction pvs as [|pv0 pvs IH]; intros s Hq Hnd Hrun pv docid Hin Hd.
  { by apply elem_of_nil in Hin. }
  simpl in Hrun. unfold bind at 1 in Hrun.
  unfold SimIndex.precompute_one at 1 in Hrun. unfold bind, get in Hrun.
  rewrite Hq in Hrun. simpl in Hrun, Hnd.
  destruct (docids !! pv0.1) as [d0|] eqn:Hd0; [simpl in Hrun|done].
  apply NoDup_cons in Hnd as [Hnotin Hnd].
  set (s1 := SimIndex.set_id2sims
               <[d0 := SimIndex.sims2scores s (Similarity.getitem false q pv0.2)]> s)
    in *.
  assert (∀ pvs' t t', 
    for_each pvs' (SimIndex.precompute_one docids) t = Ok tt t' →
    ∀ d, d ∉ omap (λ pv : nat * Vec, docids !! pv.1) pvs' →
         SimIndex.id2sims t' !! d = SimIndex.id2sims t !! d) as Hframe.
  { clear. induction pvs' as [|pv pvs' IH]; intros t t'; simpl.
    - by intros [= <-].
    - unfold bind at 1. unfold SimIndex.precompute_one at 1.
      unfold bind, get.
      destruct (SimIndex.qindex t) as [q|]; [simpl|done].
      destruct (docids !! pv.1) as [d'|] eqn:Hd; [simpl|done].
      intros Hrest d [Hne Hnotin]%not_elem_of_cons.
      rewrite (IH _ _ Hrest d Hnotin). simpl. by rewrite lookup_insert_ne. }
  apply elem_of_cons in Hin as [->|Hin].
  - rewrite Hd0 in Hd. injection Hd as ->.
    rewrite (Hframe _ _ _ Hrun docid Hnotin). simpl.
    by rewrite lookup_insert_eq.
  - rewrite (IH s1 Hq Hnd Hrun pv docid Hin Hd). done.
Qed.

Lemma precompute_new_entries docids tmpindex s s' q :
  SimIndex.qindex s = Some q → NoDup docids →
  SimIndex.precompute_new docids tmpindex s = Ok tt s' →
  ∀ i docid vec, docids !! i = Some docid → tmpindex !! i = Some vec →
    SimIndex.id2sims s' !! docid
    = Some (SimIndex.sims2scores s (Similarity.getitem false q vec)).
Proof.
  intros Hq Hnd Hrun i docid vec Hi Hvec.
  unfold SimIndex.precompute_new, Similarity.iter_chunks in Hrun.
  apply (precompute_loop_entries docids q
           (imap (λ pos vec, (pos, vec)) tmpindex) s s' Hq)
    with (pv := (i, vec)); [|done| |done].
  - assert (∀ (l : list Vec) k,
      omap (λ pv : nat * Vec, docids !! pv.1)
           (imap (λ pos vec, (k + pos, vec)%nat) l)
      `sublist_of` drop k docids) as Hsub.
    { induction l as [|v l IH]; intros k; simpl; [apply sublist_nil_l|].
      rewrite Nat.add_0_r.
      destruct (docids !! k) as [d|] eqn:Hk.
      - rewrite (drop_S _ _ _ Hk). apply sublist_skip.
        rewrite (imap_ext _ (λ pos vec, (S k + pos, vec)%nat))
          by (intros; simpl; f_equal; lia).
        apply IH.
      - rewrite drop_ge by (by apply lookup_ge_None). simpl.
        rewrite (imap_ext _ (λ pos vec, (S k + pos, vec)%nat))
          by (intros; simpl; f_equal; lia).
        specialize (IH (S k)). rewrite drop_ge in IH; [done|].
        apply lookup_ge_None in Hk. lia. }
    eapply sublist_NoDup; [exact Hnd|]. apply (Hsub tmpindex 0%nat).
  - by apply (elem_of_lookup_imap_2 (λ pos vec, (pos, vec))).
Qed.
End new_entries.

Section old_loop.
Context `{Backend}.
Implicit Types s : SimIndex.t.

(** Each old document whose position is visited once has its entry merged
    with the scores of its vector against the temporary index. *)
Lemma update_old_loop_entries tmpindex (pvs : list (nat * Vec)) s s' :
  NoDup (omap (λ pv : nat * Vec, SimIndex.pos2id s !! pv.1) pvs) →
  for_each pvs (SimIndex.update_old_one tmpindex) s = Ok tt s' →
  (∀ pv docid, pv ∈ pvs → SimIndex.pos2id s !! pv.1 = Some docid →
     ∃ old, SimIndex.id2sims s !! docid = Some old
            ∧ SimIndex.id2sims s' !! docid
              = Some (merge_sim old
                        (SimIndex.sims2scores s
                           (Similarity.getitem false tmpindex pv.2))))
  ∧ (∀ docid,
       (docid ∉ omap (λ pv : nat * Vec, SimIndex.pos2id s !! pv.1) pvs) →
       SimIndex.id2sims s' !! docid = SimIndex.id2sims s !! docid).
Proof.
  revert s. induction pvs as [|pv0 pvs IH]; intros s Hnd Hrun.
  { injection Hrun as <-. split; [|done]. by intros ?? ?%elem_of_nil. }
  simpl in Hrun. unfold bind at 1 in Hrun.
  rewrite update_old_one_eq in Hrun. simpl in Hnd.
  destruct (SimIndex.pos2id s !! pv0.1) as [d0|] eqn:Hd0; [|done].
  destruct (SimIndex.id2sims s !! d0) as [old0|] eqn:Hold0; [|done].
  apply NoDup_cons in Hnd as [Hnotin Hnd].
  set (s1 := SimIndex.set_id2sims
               <[d0 := merge_sim old0
                         (SimIndex.sims2scores s
                            (Similarity.getitem false tmpindex pv0.2))]> s)
    in *.
  destruct (IH s1 Hnd Hrun) as [Hhit Hframe]. split.
  - intros pv docid [->|Hin]%elem_of_cons Hd.
    + rewrite Hd0 in Hd. injection Hd as <-. exists old0. split; [done|].
      rewrite (Hframe d0 Hnotin). simpl. by rewrite lookup_insert_eq.
    + destruct (Hhit pv docid Hin Hd) as (old & Hold & Hnew).
      assert (docid ≠ d0) as Hne.
      { intros ->. apply Hnotin, list_elem_of_omap. by exists pv. }
      simpl in Hold. rewrite lookup_insert_ne in Hold by done.
      exists old. split; [done|]. rewrite Hnew.
      by rewrite (sims2scores_ext s s1).
  - intros docid Hn. simpl in Hn. rewrite Hd0 in Hn.
    apply not_elem_of_cons in Hn as [Hne Hnotin'].
    rewrite (Hframe docid Hnotin'). simpl. by rewrite lookup_insert_ne.
Qed.

Lemma precompute_loop_frame docids (pvs : list (nat * Vec)) s s' docid :
  for_each pvs (SimIndex.precompute_one docids) s = Ok tt s' →
  (docid ∉ docids) →
  SimIndex.id2sims s' !! docid = SimIndex.id2sims s !! docid.
Proof.
  revert s. induction pvs as [|pv pvs IH]; intros s; simpl.
  - by intros [= <-].
  - unfold bind at 1. unfold SimIndex.precompute_one at 1.
    unfold bind, get.
    destruct (SimIndex.qindex s) as [q|]; [simpl|done].
    destruct (docids !! pv.1) as [d'|] eqn:Hd; [simpl|done].
    intros Hrest Hnotin. rewrite (IH _ Hrest Hnotin). simpl.
    rewrite lookup_insert_ne; [done|]. intros ->.
    apply Hnotin. by apply list_elem_of_lookup_2 in Hd.
Qed.

Lemma NoDup_positions (pos2id : gmap nat DocId) (stored : list Vec) :
  (∀ p q docid, pos2id !! p = Some docid → pos2id !! q = Some docid → p = q) →
  NoDup (omap (λ pv : nat * Vec, pos2id !! pv.1)
           (imap (λ pos vec, (pos, vec)) stored)).
Proof.
  intros Hinj.
  assert (∀ (l : list Vec) k,
    NoDup (omap (λ pv : nat * Vec, pos2id !! pv.1)
             (imap (λ pos vec, (k + pos, vec)%nat) l))
    ∧ ∀ docid, docid ∈ omap (λ pv : nat * Vec, pos2id !! pv.1)
                        (imap (λ pos vec, (k + pos, vec)%nat) l) →
               ∃ p, (k ≤ p)%nat ∧ pos2id !! p = Some docid) as Hgen.
  { induction l as [|v l IH]; intros k; simpl.
    - split; [constructor|]. by intros ? ?%elem_of_nil.
    - rewrite Nat.add_0_r.
      rewrite (imap_ext _ (λ pos vec, (S k + pos, vec)%nat))
        by (intros; simpl; f_equal; lia).
      destruct (IH (S k)) as [Hnd Hfrom].
      destruct (pos2id !! k) as [d|] eqn:Hk.
      + split.
        * constructor; [|done]. intros (p & Hle & Hp)%Hfrom.
          pose proof (Hinj _ _ _ Hk Hp). lia.
        * intros docid [->|Hin]%elem_of_cons; [by exists k|].
          destruct (Hfrom docid Hin) as (p & ? & ?). exists p. split; [lia|done].
      + split; [done|]. intros docid Hin.
        destruct (Hfrom docid Hin) as (p & ? & ?). exists p. split; [lia|done]. }
  apply (Hgen stored 0%nat).
Qed.
End old_loop.

Section cache_update.
Context `{Backend}.
Implicit Types s : SimIndex.t.

(** The entry [index_documents] computes for a document of the batch. *)
Lemma new_entry_computed fresh_docs s s' docid doc :
  reachable s → SimIndex.precompute s = true → NoDup fresh_docs.*1 →
  SimIndex.index_documents fresh_docs s = Ok tt s' →
  (docid, doc) ∈ fresh_docs →
  SimIndex.id2sims s' !! docid
  = Some (SimIndex.sims2scores s'
            (map (dot (unitvec (doc2vec doc))) (stored_vectors s'))).
Proof.
  intros Hr Hpre Hnd Hrun [i Hi]%list_elem_of_lookup.
  destruct (reachable_sound_cache s Hr) as [Hs _].
  pose proof (index_documents_steps fresh_docs s Hs Hpre) as Hsteps.
  cbv zeta in Hsteps.
  destruct (SimIndex.update_old _ _ _) as [[] s1|e s1]; [|congruence].
  destruct Hsteps
    as (s3 & s4 & Hrun3 & Hrun4 & Hrun' & Hs1 & _ & _ & Hsame4 & Hq3).
  rewrite Hrun in Hrun'. injection Hrun' as <-.
  destruct Hsame4 as (_ & Hpos4 & _ & Hstore4 & _).
  rewrite (precompute_new_entries _ _ _ _ _ Hq3 Hnd Hrun4 i docid
             (unitvec (doc2vec doc))).
  - rewrite (sims2scores_ext s3 s' _ Hpos4). rewrite Hstore4.
    unfold stored_vectors. by rewrite Hq3.
  - by rewrite list_lookup_fmap, Hi.
  - by apply (lookup_tmpindex _ _ docid).
Qed.

(** What [index_documents] merges into the entry of a document it already
    holds, when no two positions are mapped to one id. *)
Lemma old_entry_merged fresh_docs s s' docid pos :
  reachable s → backward s → SimIndex.precompute s = true →
  SimIndex.index_documents fresh_docs s = Ok tt s' →
  SimIndex.id2pos s !! docid = Some pos → (docid ∉ fresh_docs.*1) →
  ∃ old vec,
    SimIndex.id2sims s !! docid = Some old
    ∧ stored_vectors s !! pos = Some vec
    ∧ SimIndex.id2sims s' !! docid
      = Some (merge_sim old
                (SimIndex.sims2scores s
                   (map (dot vec)
                      (map unitvec (map doc2vec fresh_docs.*2))))).
Proof.
  intros Hr Hback Hpre Hrun Hpos Hnotin.
  destruct (reachable_sound_cache s Hr) as [[Hf Hb] _].
  pose proof (index_documents_steps fresh_docs s (conj Hf Hb) Hpre) as Hsteps.
  cbv zeta in Hsteps.
  destruct (with_qindex_spec s) as ((_ & Hpos0 & _) & Hsims0 & _).
  destruct (SimIndex.update_old _ _ _) as [[] s1|e s1] eqn:Hrun1;
    [|congruence].
  destruct Hsteps as (s3 & s4 & _ & Hrun4 & Hrun' & _ & _ & Hsims3 & _).
  rewrite Hrun in Hrun'. injection Hrun' as <-.
  pose proof (Hf _ _ Hpos) as Hid. pose proof (Hb _ _ Hid) as Hlt.
  rewrite (reachable_aligned s Hr) in Hlt.
  destruct (lookup_lt_is_Some_2 _ _ Hlt) as [vec Hvec].
  unfold SimIndex.update_old in Hrun1.
  destruct (update_old_loop_entries _ _ _ _
              (NoDup_positions (SimIndex.pos2id (with_qindex s))
                 (stored_vectors s)
                 ltac:(rewrite Hpos0; intros p q d Hp%Hback Hq%Hback;
                       congruence))
              Hrun1) as [Hhit _].
  destruct (Hhit (pos, vec) docid) as (old & Hold & Hnew).
  { by apply (elem_of_lookup_imap_2 (λ pos vec, (pos, vec))). }
  { by rewrite Hpos0. }
  exists old, vec. rewrite <-Hsims0. split_and!; [done..|].
  unfold SimIndex.precompute_new in Hrun4.
  rewrite (precompute_loop_frame _ _ _ _ docid Hrun4 Hnotin), Hsims3, Hnew.
  by rewrite (sims2scores_ext s (with_qindex s)).
Qed.

End cache_update.

(** ** The claims of the specification *)

Import Scenario.

Lemma reachable_ab : reachable ab.
Proof. apply reachable_index, reachable_init. Qed.

Lemma reachable_abc : reachable abc.
Proof. apply reachable_index, reachable_init. Qed.

(** *** C1 *)

Section read_path.
Context `{Backend}.
Implicit Types s : SimIndex.t.

Lemma delete_same_rest docids s :
  same_rest s (state_of (SimIndex.delete docids s)).
Proof.
  rewrite delete_eq. pose proof (delete_loop docids s) as Hloop.
  destruct (for_each docids SimIndex.delete_one s) as [[] s1|e s1].
  - destruct Hloop as (_ & _ & _ & _ & Hrest). cbv zeta.
    by destruct (Nat.eqb _ _).
  - by destruct Hloop as (pre & k & post & _ & _ & (_&_&_&_&?) & _).
Qed.

(** With precomputation on, [sims_by_id] hands out the stored entry as it
    is: whatever [delete] removed from the id maps is still in it. *)
Lemma sims_by_id_after_delete docids s s' docid l :
  SimIndex.precompute s = true →
  SimIndex.delete docids s = Ok tt s' →
  SimIndex.id2sims s !! docid = Some l →
  SimIndex.sims_by_id docid s' = Ok l s'.
Proof.
  intros Hpre Hdel Hl. pose proof (delete_same_rest docids s) as Hrest.
  rewrite Hdel in Hrest. destruct Hrest as (Hsims & Hpre' & _). simpl in *.
  unfold SimIndex.sims_by_id, bind, get. by rewrite Hpre', Hpre, Hsims, Hl.
Qed.
End read_path.

(** C1 (the code departs from the claim).  In the precomputing index holding
    "a" and "b", [delete ["a"]] succeeds and removes "a" from [id2pos], yet
    [sims_by_id "b"] still returns the pair whose peer is "a". *)
Theorem deleted_peer_still_returned :
  delete_ids ["a"] ab = Ok tt ab_without_a
  ∧ SimIndex.id2pos ab_without_a !! "a" = None
  ∧ SimIndex.sims_by_id "b" ab_without_a
    = Ok [("b", 25); ("a", 15)] ab_without_a.
Proof. split_and!; vm_compute; reflexivity. Qed.

(** *** C2 *)

(** In a precomputing index with a ghost slot, every call of
    [index_documents] raises. *)
Lemma index_documents_ghost `{Backend} fresh_docs (s : SimIndex.t) pos :
  SimIndex.precompute s = true →
  (pos < length (stored_vectors s))%nat →
  SimIndex.pos2id s !! pos = None →
  ∃ e s', SimIndex.index_documents fresh_docs s = Err e s'.
Proof.
  intros Hpre Hpos Hghost. rewrite index_documents_unfold. cbv zeta.
  rewrite Hpre. simpl.
  match goal with
  | |- context [SimIndex.update_old ?tmp ?q ?s0] =>
      destruct (update_old_ghost tmp q s0 pos) as (e & s' & ->)
  end; [done| |eauto].
  destruct (with_qindex_spec s) as ((_ & -> & _) & _). done.
Qed.

(** C2 (the code departs from the claim).  After [delete ["a"]] position 0
    of the precomputing index is a ghost slot; the next [index_documents]
    raises [KeyError] on it instead of skipping it, and indexes nothing. *)
Theorem ghost_slot_raises :
  SimIndex.pos2id ab_without_a !! 0%nat = None
  ∧ index [("c", [4; 3])] ab_without_a = Err (KeyError_pos 0) ab_without_a.
Proof. split; vm_compute; reflexivity. Qed.

(** *** C3 *)





(** *** C4 *)

(** The pairs merged into the entry of an old document carry ids of the
    permanent index: a position of the temporary index is read through
    [pos2id], which knows nothing of the batch yet. *)
Lemma update_old_one_peers `{Backend} tmpindex pv (s s' : SimIndex.t) :
  SimIndex.update_old_one tmpindex pv s = Ok tt s' →
  ∃ docid oldsims newsims,
    SimIndex.pos2id s !! pv.1 = Some docid
    ∧ SimIndex.id2sims s !! docid = Some oldsims
    ∧ SimIndex.id2sims s'
      = <[docid := merge_sim oldsims newsims]> (SimIndex.id2sims s)
    ∧ ∀ peer score, (peer, score) ∈ newsims →
        ∃ pos, SimIndex.pos2id s !! pos = Some peer.
Proof.
  rewrite update_old_one_eq.
  destruct (SimIndex.pos2id s !! pv.1) as [docid|] eqn:Hpos; [simpl|done].
  destruct (SimIndex.id2sims s !! docid) as [oldsims|] eqn:Hold; [simpl|done].
  intros [= <-]. eexists docid, oldsims, _. split_and!; [done..|].
  intros peer score (pos & _ & Hpeer & _)%sims2scores_live. eauto.
Qed.

(** C4 (the code departs from the claim).  Adding "c", whose score against
    "a" is 24 and ranks second, to the precomputing index holding "a" and "b"
    succeeds, but the pair merged into the entry of "a" is labelled "a": the
    entry holds "a" twice and "c" never enters it. *)
Theorem new_document_merged_under_old_id :
  index [("c", [4; 3])] ab = Ok tt ab_then_c
  ∧ SimIndex.id2sims ab !! "a" = Some [("a", 25); ("b", 15)]
  ∧ SimIndex.id2sims ab_then_c !! "a" = Some [("a", 25); ("a", 24); ("b", 15)]
  ∧ SimIndex.id2sims ab_then_c !! "c" = Some [("c", 25); ("a", 24); ("b", 20)].
Proof. split_and!; vm_compute; reflexivity. Qed.

(** *** C5 *)

(** C5 (counterexample).  Three stored entries that are not as the data model
    describes them: the entry of "a" holds "a" itself; the entry of one of two
    documents with equal vectors has two equal scores; the entry of "b" still
    holds "a" after "a" was deleted. *)
Lemma stored_entries_not_as_specified :
  (SimIndex.id2sims a_only !! "a" = Some [("a", 25)]
   ∧ ¬ entry_as_specified a_only "a" [("a", 25)])
  ∧ (SimIndex.id2sims twins !! "a" = Some [("b", 25); ("a", 25)]
     ∧ ¬ entry_as_specified twins "a" [("b", 25); ("a", 25)])
  ∧ (SimIndex.id2sims ab_without_a !! "b" = Some [("b", 25); ("a", 15)]
     ∧ ¬ entry_as_specified ab_without_a "b" [("b", 25); ("a", 15)]).
Proof.
  split_and!.
  - vm_compute. reflexivity.
  - intros (_ & _ & _ & Hown & _). apply Hown. simpl. left.
  - vm_compute. reflexivity.
  - intros (_ & [Hall _]%StronglySorted_cons & _).
    apply Forall_cons in Hall as [Hlt _]. simpl in Hlt. lia.
  - vm_compute. reflexivity.
  - intros (_ & _ & _ & _ & Hlive).
    destruct (Hlive "a") as [pos Hpos]; [simpl; right; left|].
    vm_compute in Hpos. discriminate.
Qed.

(** C5 (as amended).  In every reachable state, a list returned by
    [sims2scores] has at most [TOP_SIMS] pairs, is sorted by non-increasing
    score, and each of its pairs is the id and the absolute score of a position
    that [pos2id] maps; when the id maps are inverse, its ids are pairwise
    distinct and all mapped by [id2pos].  Every stored entry has at most
    [TOP_SIMS] pairs and is sorted by non-increasing score. *)
Theorem ranked_list_invariants `{Backend} (s : SimIndex.t) :
  reachable s →
  (∀ sims,
     let l := SimIndex.sims2scores s sims in
     (length l ≤ TOP_SIMS)%nat ∧ desc l
     ∧ (∀ docid score, (docid, score) ∈ l →
          ∃ pos, SimIndex.pos2id s !! pos = Some docid
                 ∧ score = Z.abs (at_pos sims pos))
     ∧ (inverse_maps s →
          NoDup l.*1
          ∧ ∀ docid, docid ∈ l.*1 → is_Some (SimIndex.id2pos s !! docid)))
  ∧ (∀ docid l, SimIndex.id2sims s !! docid = Some l →
       (length l ≤ TOP_SIMS)%nat ∧ desc l).
Proof.
  intros [Hs Hc]%reachable_sound_cache. split; [|exact Hc].
  intros sims l. split_and!.
  - apply sims2scores_length.
  - apply sims2scores_desc.
  - intros docid score (pos & _ & ? & ?)%sims2scores_live. eauto.
  - intros [_ Hback]%(inverse_maps_exact _ Hs). split.
    + apply sims2scores_NoDup. intros p q docid Hp%Hback Hq%Hback. congruence.
    + intros docid ([d score] & -> & Hin)%list_elem_of_fmap.
      apply sims2scores_live in Hin as (pos & _ & Hpos & _).
      apply Hback in Hpos. by eexists.
Qed.

Lemma ranked_list_invariants_witness :
  reachable abc
  ∧ inverse_maps abc
  ∧ SimIndex.sims2scores abc [3; -5; 4] = [("b", 5); ("c", 4); ("a", 3)]
  ∧ (length [("b", 5); ("c", 4); ("a", 3)] ≤ TOP_SIMS)%nat
  ∧ desc [("b", 5); ("c", 4); ("a", 3)]
  ∧ NoDup [("b", 5); ("c", 4); ("a", 3)].*1
  ∧ SimIndex.id2sims abc !! "a" = Some [("a", 25); ("c", 20); ("b", 15)]
  ∧ (length [("a", 25); ("c", 20); ("b", 15)] ≤ TOP_SIMS)%nat
  ∧ desc [("a", 25); ("c", 20); ("b", 15)].
Proof.
  assert (inverse_maps abc) as Hinv.
  { apply exact_inverse_maps, consistent_exact.
    apply consistent_index, consistent_init. }
  assert (SimIndex.sims2scores abc [3; -5; 4]
          = [("b", 5); ("c", 4); ("a", 3)]) as Hl by (vm_compute; reflexivity).
  assert (SimIndex.id2sims abc !! "a" = Some [("a", 25); ("c", 20); ("b", 15)])
    as Ha by (vm_compute; reflexivity).
  destruct (proj1 (ranked_list_invariants abc reachable_abc) [3; -5; 4])
    as (Hlen & Hdesc & _ & Hdistinct).
  rewrite Hl in Hlen, Hdesc, Hdistinct.
  split_and!; [exact reachable_abc|exact Hinv|exact Hl|exact Hlen|exact Hdesc
              |exact (proj1 (Hdistinct Hinv))|exact Ha|..];
    apply (proj2 (ranked_list_invariants abc reachable_abc) "a" _ Ha).
Defined.

(** *** C6 *)

(** C6 (counterexample).  With the cosine kernel on one feature, a document
    whose vector is zero scores 0 against itself, while the kernel attains 1:
    the round trip does not show it at the maximal attainable score. *)
Lemma zero_vector_not_at_maximum :
  ¬ round_trip_at_maximum (H:=cosine1) true "a" 0.
Proof.
  intros (s' & l & score & Hrun & Hid & _ & Hin & _ & Hmax).
  vm_compute in Hrun. injection Hrun as <-.
  vm_compute in Hid. injection Hid as <-.
  apply list_elem_of_singleton in Hin. injection Hin as ->.
  specialize (Hmax 1). assert (1 ≤ 0); [|lia].
  apply Hmax. exists 1, 1. reflexivity.
Qed.

(** C6 (as amended).  After [index_documents] of the single document [doc]
    under [docid] on a fresh index, [sims_by_id docid] and [sims_by_doc doc]
    return the same list, whose only pair is [docid] with the score of [doc]
    against its own stored vector. *)
Theorem round_trip_single_document `{Backend} (precompute : bool)
    (docid : DocId) (doc : Doc) :
  ∃ s',
    SimIndex.index_documents [(docid, doc)] (SimIndex.init precompute) = Ok tt s'
    ∧ SimIndex.sims_by_id docid s'
      = Ok [(docid, self_similarity precompute doc)] s'
    ∧ SimIndex.sims_by_doc doc s'
      = Ok [(docid, self_similarity precompute doc)] s'.
Proof.
  unfold self_similarity, stored_alone.
  destruct precompute; (eexists; split_and!;
    [ rewrite index_documents_unfold; run_first_call; reflexivity
    | unfold SimIndex.sims_by_id, Similarity.similarity_by_id;
      run_first_call; reflexivity
    | unfold SimIndex.sims_by_doc; run_first_call; reflexivity ]).
Qed.

(** *** C7 *)

(** When [index_documents] returns, an id of the batch that was mapped before
    points at a position allocated by this call, its old position is no
    longer in [pos2id], and the vector stored there is still in the store. *)
Lemma readd_remaps `{Backend} fresh_docs (s s' : SimIndex.t) docid old :
  sound s →
  SimIndex.index_documents fresh_docs s = Ok tt s' →
  docid ∈ fresh_docs.*1 →
  SimIndex.id2pos s !! docid = Some old →
  (∃ new, SimIndex.id2pos s' !! docid = Some new
          ∧ SimIndex.pos2id s' !! new = Some docid ∧ (old < new)%nat)
  ∧ SimIndex.pos2id s' !! old = None
  ∧ ∀ pos vec, stored_vectors s !! pos = Some vec →
               stored_vectors s' !! pos = Some vec.
Proof.
  intros Hs Hrun Hin Hold.
  pose proof (index_documents_spec fresh_docs s Hs) as Hspec.
  rewrite Hrun in Hspec.
  destruct Hspec as ([Hf' _] & (_ & Hnew & _ & _ & Hgone) & Hstore & _).
  destruct Hs as [Hf Hb]. split_and!.
  - destruct (Hnew docid Hin) as (new & Hdoc & Hle). exists new.
    split_and!; [done|by apply Hf'|].
    pose proof (Hb _ _ (Hf _ _ Hold)). lia.
  - by apply (Hgone docid).
  - intros pos vec Hpos. rewrite Hstore. by apply lookup_app_l_Some.
Qed.

(** The scenario in an index that does not precompute: "a" moves from
    position 0 to the new position 3 and position 0 becomes a ghost slot. *)
Lemma readd_scenario_live :
  ∃ s', index [("a", [4; 3])] abc_live_without_b = Ok tt s'
        ∧ SimIndex.id2pos abc_live_without_b !! "a" = Some 0%nat
        ∧ SimIndex.id2pos s' !! "a" = Some 3%nat
        ∧ SimIndex.pos2id s' !! 0%nat = None
        ∧ stored_vectors s' = [[3; 4]; [5; 0]; [0; 5]; [4; 3]].
Proof. eexists. split_and!; vm_compute; reflexivity. Qed.

(** C7 (the code departs from the claim).  In the precomputing index: index
    "a", "b", "c", delete "b", index "a" again.  The last call raises
    [KeyError] on the ghost slot left by "b", and "a" stays mapped to its old
    position 0; nothing was added to the store. *)
Theorem readd_after_delete_raises :
  delete_ids ["b"] abc = Ok tt abc_without_b
  ∧ ∃ s', index [("a", [4; 3])] abc_without_b = Err (KeyError_pos 1) s'
          ∧ SimIndex.id2pos s' !! "a" = Some 0%nat
          ∧ SimIndex.pos2id s' !! 0%nat = Some "a"
          ∧ stored_vectors s' = [[3; 4]; [5; 0]; [0; 5]].
Proof.
  split; [vm_compute; reflexivity|].
  eexists. split_and!; vm_compute; reflexivity.
Qed.

(** *** C8 *)



(** *** C9 *)




(** *** C10 *)

(** C10.  If some id given to [delete] has no [id2pos] entry, the call raises
    [KeyError] at the first id [missing] that is absent when its turn comes.
    In the state it leaves, the ids iterated before [missing] are gone from
    [id2pos], every other id is mapped as before, and [pos2id] is the
    dictionary of before the call; so if the two maps were inverse and at
    least one id was removed, they no longer have the same size. *)
Theorem delete_missing_id `{Backend} (s : SimIndex.t) (docids : list DocId) :
  (∃ docid, docid ∈ docids ∧ SimIndex.id2pos s !! docid = None) →
  ∃ before missing after s',
    docids = before ++ missing :: after
    ∧ SimIndex.delete docids s = Err (KeyError_docid missing) s'
    ∧ SimIndex.id2pos s' !! missing = None
    ∧ (∀ docid, docid ∈ before → SimIndex.id2pos s' !! docid = None)
    ∧ (∀ docid, docid ∉ before →
         SimIndex.id2pos s' !! docid = SimIndex.id2pos s !! docid)
    ∧ SimIndex.pos2id s' = SimIndex.pos2id s
    ∧ (inverse_maps s → before ≠ [] →
         (size (SimIndex.id2pos s') < size (SimIndex.pos2id s'))%nat).
Proof.
  intros (docid & Hin & Hnone).
  destruct (delete_loop_missing docids s docid Hin Hnone) as (e & s' & Hloop).
  pose proof (delete_loop docids s) as Hspec. rewrite Hloop in Hspec.
  destruct Hspec as (before & missing & after & -> & -> & Hrem & Hmiss).
  exists before, missing, after, s'. split_and!.
  - done.
  - by rewrite delete_eq, Hloop.
  - done.
  - intros d Hd. rewrite (removed_lookup _ _ _ _ Hrem). by rewrite decide_True.
  - intros d Hd. rewrite (removed_lookup _ _ _ _ Hrem). by rewrite decide_False.
  - by destruct Hrem as (_ & _ & ? & _).
  - intros [_ Hsize] Hne. destruct Hrem as (_ & Hcount & -> & _).
    rewrite Hsize, <-Hcount. destruct before; [done|]. simpl. lia.
Qed.

Lemma delete_missing_id_witness :
  (∃ docid, docid ∈ ["a"; "zzz"; "b"] ∧ SimIndex.id2pos abc !! docid = None)
  ∧ ∃ before missing after s',
      ["a"; "zzz"; "b"] = before ++ missing :: after
      ∧ delete_ids ["a"; "zzz"; "b"] abc = Err (KeyError_docid missing) s'
      ∧ SimIndex.id2pos s' !! missing = None
      ∧ (∀ docid, docid ∈ before → SimIndex.id2pos s' !! docid = None)
      ∧ (∀ docid, docid ∉ before →
           SimIndex.id2pos s' !! docid = SimIndex.id2pos abc !! docid)
      ∧ SimIndex.pos2id s' = SimIndex.pos2id abc
      ∧ (inverse_maps abc → before ≠ [] →
           (size (SimIndex.id2pos s') < size (SimIndex.pos2id s'))%nat).
Proof.
  assert (∃ docid, docid ∈ ["a"; "zzz"; "b"]
                   ∧ SimIndex.id2pos abc !! docid = None) as Hmissing.
  { exists "zzz". split; [|vm_compute; reflexivity].
    apply elem_of_cons; right. apply elem_of_cons; by left. }
  split; [exact Hmissing|].
  exact (delete_missing_id abc ["a"; "zzz"; "b"] Hmissing).
Defined.

(** The state a failed call leaves on the index holding "a", "b", "c" when
    asked to delete "a", "zzz", "b": "a" is gone from
    [id2pos] and still in [pos2id], "b" was not reached. *)
Lemma failed_delete_out_of_sync :
  ∃ s', delete_ids ["a"; "zzz"; "b"] abc = Err (KeyError_docid "zzz") s'
        ∧ SimIndex.id2pos s' !! "a" = None
        ∧ SimIndex.pos2id s' !! 0%nat = Some "a"
        ∧ SimIndex.id2pos s' !! "b" = Some 1%nat
        ∧ size (SimIndex.id2pos s') = 2%nat
        ∧ size (SimIndex.pos2id s') = 3%nat.
Proof. eexists. split_and!; vm_compute; reflexivity. Qed.

(** ** Further properties of the code *)

Import Examples.

(** *** merge_sim keeps the best *)

(** X1.  [merge_sim] keeps the [TOP_SIMS] best pairs of the two lists: what it
    returns and what it drops are together the two lists, it returns all of
    them when there are at most [TOP_SIMS], the result is sorted by
    non-increasing score, and no dropped pair beats a kept one. *)
Theorem merge_sim_top (oldsims newsims : Sims) :
  ∃ dropped,
    merge_sim oldsims newsims ++ dropped ≡ₚ oldsims ++ newsims
    ∧ length (merge_sim oldsims newsims)
      = (TOP_SIMS `min` (length oldsims + length newsims))%nat
    ∧ desc (merge_sim oldsims newsims)
    ∧ ∀ kept gone, kept ∈ merge_sim oldsims newsims → gone ∈ dropped →
                   gone.2 ≤ kept.2.
Proof.
  exists (drop TOP_SIMS (sorted (λ item, - item.2) (oldsims ++ newsims))).
  split_and!.
  - unfold merge_sim. by rewrite take_drop, sorted_perm.
  - unfold merge_sim. by rewrite length_take, sorted_length, length_app.
  - apply merge_sim_desc.
  - intros kept gone. apply merge_sim_keeps_best.
Qed.

(** *** find_similar on any list *)


Lemma ranked_list_state `{Backend} doc (s : SimIndex.t) :
  state_of (ranked_list doc s) = s.
Proof.
  destruct doc as [docid|doc]; simpl.
  - unfold SimIndex.sims_by_id, bind, get.
    destruct (SimIndex.precompute s).
    + by destruct (SimIndex.id2sims s !! docid).
    + destruct (SimIndex.qindex s) as [q|]; [simpl|done].
      destruct (SimIndex.id2pos s !! docid) as [pos|]; [simpl|done].
      by destruct (Similarity.similarity_by_id q pos).
  - unfold SimIndex.sims_by_doc, bind, get.
    by destruct (SimIndex.qindex s).
Qed.



(** *** Where updateids puts the ids *)

(** The id maps and the counter of two states agree. *)

Lemma size_bounded_keys {V} (m : gmap nat V) (n : nat) :
  (∀ k v, m !! k = Some v → (k < n)%nat) → (size m ≤ n)%nat.
Proof.
  intros Hb. rewrite <-size_dom, <-(size_set_seq (C := gset nat) 0 n).
  apply subseteq_size. intros k [v Hk]%elem_of_dom.
  apply elem_of_set_seq. apply Hb in Hk. lia.
Qed.

Section placement.
Context `{Backend}.
Implicit Types s : SimIndex.t.

Lemma sound_injective s k1 k2 v :
  sound s → SimIndex.id2pos s !! k1 = Some v →
  SimIndex.id2pos s !! k2 = Some v → k1 = k2.
Proof. intros [Hf _] H1%Hf H2%Hf. congruence. Qed.

Lemma sound_len_le s :
  sound s → (simindex_len s ≤ size (SimIndex.pos2id s) ≤ SimIndex.length s)%nat.
Proof.
  intros Hs. pose proof Hs as [Hf Hb]. split.
  - unfold simindex_len.
    rewrite <-(inverse_size (SimIndex.id2pos s)
                 (SimIndex.inverse_dict (SimIndex.id2pos s))).
    + apply map_subseteq_size, map_subseteq_spec. intros pos docid Hpos.
      apply Hf. eapply inverse_dict_lookup; [|done].
      intros ???. by apply sound_injective.
    + intros docid pos. symmetry. apply inverse_dict_lookup.
      intros ???. by apply sound_injective.
  - by apply size_bounded_keys.
Qed.

Lemma updateids_assigned docids s s' :
  sound s → SimIndex.updateids docids s = Ok tt s' → assigned docids s s'.
Proof.
  revert s. induction docids as [|d ds IH]; intros s Hs Hrun.
  - injection Hrun as <-. split_and!.
    + intros pos docid Hle Hpos. destruct Hs as [_ Hb]. apply Hb in Hpos. lia.
    + done.
    + intros _ i docid. by rewrite lookup_nil.
  - destruct (updateid_Ok d s Hs) as (s1 & Hrun1 & Hid1 & Hpos1 & Hlen1 & _).
    pose proof (updateid_sound _ _ _ Hs Hrun1) as Hs1.
    assert (SimIndex.updateids ds s1 = Ok tt s') as Hrun'.
    { unfold SimIndex.updateids in *. simpl in Hrun. unfold bind in Hrun at 1.
      by rewrite Hrun1 in Hrun. }
    destruct (IH s1 Hs1 Hrun') as (Hnew & Hkept & Horder).
    destruct (updateids_Ok ds s1 Hs1) as (s'' & Hrun'' & _ & Hupd & _).
    rewrite Hrun' in Hrun''. injection Hrun'' as <-.
    destruct Hupd as (_ & _ & Hout & Hkeep & _).
    destruct Hs as [Hf Hb].
    assert (SimIndex.pos2id s1 !! SimIndex.length s = Some d) as Hd
      by (by rewrite Hpos1, lookup_insert_eq).
    split_and!.
    + intros pos docid Hle Hpos.
      destruct (decide (pos = SimIndex.length s)) as [->|Hne].
      * destruct (Hkeep (SimIndex.length s)) as [Hnone|Hsame]; [lia|congruence|].
        rewrite Hsame, Hd in Hpos. injection Hpos as <-. left.
      * right. apply (Hnew pos); [lia|done].
    + intros pos docid Hpos [Hne Hnotin]%not_elem_of_cons.
      apply Hkept; [|done]. rewrite Hpos1.
      pose proof (Hb _ _ Hpos). rewrite lookup_insert_ne by lia.
      destruct (SimIndex.id2pos s !! d) as [old|] eqn:Hold; [|done].
      rewrite lookup_delete_ne; [done|]. intros ->.
      apply Hf in Hold. congruence.
    + intros [Hd_notin Hnd]%NoDup_cons [|i] docid Hi; simpl in Hi.
      * injection Hi as <-. rewrite (Hout d Hd_notin), Hid1, lookup_insert_eq.
        f_equal. lia.
      * rewrite (Horder Hnd i docid Hi), Hlen1. f_equal. lia.
Qed.

Lemma assigned_same_idmaps docids s1 s2 s3 s4 :
  same_idmaps s1 s2 → same_idmaps s3 s4 →
  assigned docids s2 s3 → assigned docids s1 s4.
Proof.
  intros (Hid & Hpos & Hlen) (Hid' & Hpos' & Hlen').
  unfold assigned. by rewrite Hid', Hpos', Hpos, Hlen.
Qed.

Lemma same_identity_idmaps s s' : same_identity s s' → same_idmaps s s'.
Proof. by intros (?&?&?&_). Qed.

Lemma same_idmaps_trans s1 s2 s3 :
  same_idmaps s1 s2 → same_idmaps s2 s3 → same_idmaps s1 s3.
Proof.
  unfold same_idmaps. intros (?&?&?) (?&?&?). split_and!; congruence.
Qed.

(** The id maps after [index_documents] are those [updateids] builds from
    the id maps before. *)
Lemma index_documents_assigned fresh_docs s s' :
  sound s → SimIndex.index_documents fresh_docs s = Ok tt s' →
  assigned fresh_docs.*1 s s'.
Proof.
  intros Hs. rewrite index_documents_unfold. cbv zeta.
  destruct (with_qindex_spec s) as (Hsame0 & _ & _).
  pose proof (same_identity_sound _ _ Hsame0 Hs) as Hs0.
  apply same_identity_idmaps in Hsame0.
  destruct (SimIndex.precompute s); simpl.
  - match goal with
    | |- context [SimIndex.update_old ?tmp ?q ?s0] =>
        pose proof (update_old_state tmp q s0) as [Hsame1 _];
        destruct (SimIndex.update_old tmp q s0) as [[] s1|e s1]
    end; cbn [state_of] in Hsame1; [|done].
    pose proof (same_identity_sound _ _ Hsame1 Hs0) as Hs1.
    apply same_identity_idmaps in Hsame1.
    match goal with
    | |- context [SimIndex.updateids ?d ?st] =>
        destruct (SimIndex.updateids d st) as [[] s3|e s3] eqn:Hrun3; [|done];
        pose proof (updateids_assigned d st s3 (sound_set_qindex _ _ Hs1) Hrun3)
          as Hassigned;
        destruct (updateids_Ok d st (sound_set_qindex _ _ Hs1))
          as (s3' & Hrun3' & _ & _ & (_ & _ & Hq3) & _)
    end.
    rewrite Hrun3 in Hrun3'. injection Hrun3' as <-.
    match goal with
    | |- context [SimIndex.precompute_new ?d ?tmp ?st] =>
        destruct (precompute_new_Ok d tmp st)
          as (s4 & Hrun4 & Hsame4 & _)
    end.
    { rewrite Hq3. by eexists. }
    { unfold Similarity.add_documents, Similarity.empty. simpl.
      by rewrite !length_fmap. }
    rewrite Hrun4. intros [= <-].
    apply same_identity_idmaps in Hsame4.
    eapply assigned_same_idmaps; [|exact Hsame4|exact Hassigned].
    by eapply same_idmaps_trans.
  - intros Hrun.
    pose proof (updateids_assigned _ _ _ (sound_set_qindex _ _ Hs0) Hrun)
      as Hassigned.
    eapply assigned_same_idmaps; [| |exact Hassigned].
    + exact Hsame0.
    + by unfold same_idmaps.
Qed.
End placement.

(** *** The cache of a precomputing index *)

Section cache_domain.
Context `{Backend}.
Implicit Types s : SimIndex.t.

Lemma update_old_one_dom tmpindex pv s docid :
  is_Some (SimIndex.id2sims s !! docid) →
  is_Some (SimIndex.id2sims
             (state_of (SimIndex.update_old_one tmpindex pv s)) !! docid).
Proof.
  intros Hd. rewrite update_old_one_eq.
  destruct (SimIndex.pos2id s !! pv.1) as [d|]; [simpl|done].
  destruct (SimIndex.id2sims s !! d) as [oldsims|]; [simpl|done].
  destruct (decide (d = docid)) as [->|Hne].
  - rewrite lookup_insert_eq. by eexists.
  - by rewrite lookup_insert_ne.
Qed.

Lemma update_old_dom tmpindex stored s docid :
  is_Some (SimIndex.id2sims s !! docid) →
  is_Some (SimIndex.id2sims
             (state_of (SimIndex.update_old tmpindex stored s)) !! docid).
Proof.
  intros Hd.
  apply (for_each_state (λ t, is_Some (SimIndex.id2sims t !! docid)));
    [|done].
  intros pv t _. apply update_old_one_dom.
Qed.

(** The pass over the new documents gives every id of the batch an entry
    and keeps the others. *)
Lemma precompute_new_dom docids tmpindex s s' :
  length tmpindex = length docids →
  SimIndex.precompute_new docids tmpindex s = Ok tt s' →
  ∀ docid, docid ∈ docids ∨ is_Some (SimIndex.id2sims s !! docid) →
           is_Some (SimIndex.id2sims s' !! docid).
Proof.
  unfold SimIndex.precompute_new, Similarity.iter_chunks.
  intros Hlen Hrun docid.
  assert (∀ (pvs : list (nat * Vec)) (t t' : SimIndex.t),
    for_each pvs (SimIndex.precompute_one docids) t = Ok tt t' →
    ((∃ pv, pv ∈ pvs ∧ docids !! pv.1 = Some docid)
     ∨ is_Some (SimIndex.id2sims t !! docid)) →
    is_Some (SimIndex.id2sims t' !! docid)) as Hloop.
  { induction pvs as [|pv pvs IH]; intros t t'; simpl.
    - intros [= <-] [(pv & []%elem_of_nil & _)|?]. done.
    - unfold bind at 1. unfold SimIndex.precompute_one at 1.
      unfold bind, get.
      destruct (SimIndex.qindex t) as [q|]; [simpl|done].
      destruct (docids !! pv.1) as [d|] eqn:Hd; [simpl|done].
      intros Hrest Hcase. apply (IH _ _ Hrest). simpl.
      destruct (decide (d = docid)) as [->|Hne].
      + right. rewrite lookup_insert_eq. by eexists.
      + rewrite lookup_insert_ne by done.
        destruct Hcase as [(pv' & [->|Hin]%elem_of_cons & Hpv')|?];
          [congruence|left; eauto|by right]. }
  intros [Hin|Hold]; apply (Hloop _ _ _ Hrun); [left|by right].
  apply list_elem_of_lookup in Hin as [i Hi].
  destruct (lookup_lt_is_Some_2 tmpindex i) as [vec Hvec].
  { apply lookup_lt_Some in Hi. lia. }
  exists (i, vec). split; [|done].
  by apply (elem_of_lookup_imap_2 (λ pos vec, (pos, vec))).
Qed.


Lemma index_documents_dom fresh_docs s docid :
  sound s → is_Some (SimIndex.id2sims s !! docid) →
  is_Some (SimIndex.id2sims
             (state_of (SimIndex.index_documents fresh_docs s)) !! docid).
Proof.
  intros Hs Hd. destruct (SimIndex.precompute s) eqn:Hpre.
  - pose proof (index_documents_steps fresh_docs s Hs Hpre) as Hsteps.
    cbv zeta in Hsteps.
    destruct (with_qindex_spec s) as (_ & Hsims0 & _).
    match type of Hsteps with
    | context [SimIndex.update_old ?tmp ?q ?s0] =>
        pose proof (update_old_dom tmp q s0 docid) as Hdom;
        destruct (SimIndex.update_old tmp q s0) as [[] s1|e s1]
    end; rewrite Hsims0 in Hdom; specialize (Hdom Hd); simpl in Hdom.
    + destruct Hsteps as (s3 & s4 & _ & Hrun4 & -> & _ & _ & Hsims3 & _).
      simpl. eapply precompute_new_dom; [|exact Hrun4|].
      * by rewrite ?length_map, ?length_fmap.
      * right. by rewrite Hsims3.
    + by rewrite Hsteps.
  - rewrite index_documents_unfold. cbv zeta. rewrite Hpre. simpl.
    destruct (with_qindex_spec s) as (Hsame0 & Hsims0 & _).
    pose proof (same_identity_sound _ _ Hsame0 Hs) as Hs0.
    match goal with
    | |- context [SimIndex.updateids ?d ?st] =>
        destruct (updateids_Ok d st (sound_set_qindex _ _ Hs0))
          as (s3 & -> & _ & _ & (Hsims3 & _) & _)
    end.
    simpl. rewrite Hsims3. simpl. by rewrite Hsims0.
Qed.

(** The positions [delete] leaves in [pos2id] were there before. *)
Lemma delete_pos2id docids s pos docid :
  sound s →
  SimIndex.pos2id (state_of (SimIndex.delete docids s)) !! pos = Some docid →
  SimIndex.pos2id s !! pos = Some docid.
Proof.
  intros Hs. rewrite delete_eq. pose proof (delete_loop docids s) as Hloop.
  destruct (for_each docids SimIndex.delete_one s) as [[] s1|e s1].
  - cbv zeta. pose proof (delete_rebuilt _ _ _ Hloop Hs) as [_ Hback].
    match goal with
    | |- context [if ?b then _ else _] =>
        replace (state_of (if b then _ else _))
          with (SimIndex.set_pos2id
                  (λ _, SimIndex.inverse_dict (SimIndex.id2pos s1)) s1)
          by (by destruct b)
    end.
    intros Hpos. apply Hback in Hpos. simpl in Hpos.
    destruct Hs as [Hf _]. apply Hf.
    by eapply removed_lookup_Some.
  - destruct Hloop as (pre & k & post & _ & _ & (_ & _ & Hpos & _) & _).
    simpl. by rewrite Hpos.
Qed.

Lemma reachable_cached s :
  reachable s → SimIndex.precompute s = true → cached s.
Proof.
  induction 1 as [pre|s docs Hr IH|s ids Hr IH].
  - intros _ pos docid. simpl. by rewrite lookup_empty.
  - destruct (reachable_sound_cache s Hr) as [Hs _].
    rewrite (index_documents_precompute docs s Hs). intros Hpre.
    specialize (IH Hpre). intros pos docid Hpos.
    pose proof (index_documents_dom docs s docid Hs) as Hdom.
    pose proof (index_documents_spec docs s Hs) as Hspec.
    pose proof (index_documents_steps docs s Hs Hpre) as Hsteps.
    cbv zeta in Hsteps.
    destruct (SimIndex.index_documents docs s) as [[] s'|e s'] eqn:Hrun;
      simpl in *.
    + destruct Hspec as (_ & (_ & _ & _ & Hkeep & _) & _).
      destruct (decide (pos < SimIndex.length s)%nat) as [Hlt|Hge].
      * destruct (Hkeep pos Hlt) as [Hnone|Hsame]; [congruence|].
        rewrite Hsame in Hpos. by apply Hdom, (IH pos).
      * destruct (index_documents_assigned docs s s' Hs Hrun) as (Hnew & _).
        assert (docid ∈ docs.*1) as Hin by (apply (Hnew pos); [lia|done]).
        destruct (SimIndex.update_old _ _ _) as [[] s1|e s1]; [|done].
        destruct Hsteps as (s3 & s4 & _ & Hrun4 & [= <-] & _).
        eapply precompute_new_dom; [|exact Hrun4|by left].
        by rewrite ?length_map, ?length_fmap.
    + destruct Hspec as ((_ & Hsame & _) & _). rewrite Hsame in Hpos.
      by apply Hdom, (IH pos).
  - destruct (reachable_sound_cache s Hr) as [Hs _].
    destruct (delete_same_rest ids s) as (Hsims & Hpre' & _).
    rewrite Hpre'. intros Hpre pos docid Hpos%(delete_pos2id _ _ _ _ Hs).
    rewrite Hsims. by apply (IH Hpre pos).
Qed.

Lemma update_old_full tmpindex s :
  full s → cached s → aligned s →
  ∃ s1, SimIndex.update_old tmpindex (stored_vectors s) (with_qindex s)
        = Ok tt s1.
Proof.
  intros Hfull Hcached Haligned.
  destruct (with_qindex_spec s) as ((_ & Hpos0 & _) & Hsims0 & _).
  destruct (for_each_Ok
    (λ t : SimIndex.t, SimIndex.pos2id t = SimIndex.pos2id s
         ∧ ∀ docid, is_Some (SimIndex.id2sims s !! docid) →
                    is_Some (SimIndex.id2sims t !! docid))
    (imap (λ pos vec, (pos, vec)) (stored_vectors s))
    (SimIndex.update_old_one tmpindex)) with (s := with_qindex s)
    as (s1 & Hrun & _).
  - intros [pos vec] t Hin [Hpos Hdom].
    apply elem_of_lookup_imap_1 in Hin as (i & v & [= -> ->] & Hi).
    apply lookup_lt_Some in Hi. rewrite <-Haligned in Hi.
    destruct (Hfull i Hi) as [docid Hdocid].
    pose proof (update_old_one_dom tmpindex (i, v) t) as Hstep.
    pose proof (update_old_one_state tmpindex (i, v) t) as [(_&Hpos'&_) _].
    rewrite update_old_one_eq in *. simpl in *. rewrite Hpos, Hdocid in *.
    destruct (Hdom docid (Hcached _ _ Hdocid)) as [old Hold].
    rewrite Hold in *. simpl in *. eexists. split; [done|]. simpl. split.
    + done.
    + intros d Hd. by apply Hstep, Hdom.
  - split; [done|]. intros docid. by rewrite Hsims0.
  - by exists s1.
Qed.
End cache_domain.

(** *** Ghost slots *)

Section ghost_slots.
Context `{Backend}.
Implicit Types s : SimIndex.t.

Lemma later_reachable s s' : reachable s → later s s' → reachable s'.
Proof. induction 2; [done|by constructor..]. Qed.

Lemma later_precompute s s' :
  reachable s → later s s' → SimIndex.precompute s' = SimIndex.precompute s.
Proof.
  intros Hr. induction 1 as [|s' docs Hl IH|s' ids Hl IH]; [done|..].
  - rewrite index_documents_precompute; [done|].
    by apply reachable_sound_cache, (later_reachable s).
  - by destruct (delete_same_rest ids s') as (_ & -> & _).
Qed.

Lemma full_no_ghost s : full s ↔ ∀ pos, ¬ ghost_slot s pos.
Proof.
  split.
  - intros Hfull pos [Hlt Hnone]. destruct (Hfull pos Hlt). congruence.
  - intros Hno pos Hlt. destruct (SimIndex.pos2id s !! pos) eqn:Hpos; [done|].
    by destruct (Hno pos).
Qed.

Lemma ghost_raises fresh_docs s pos :
  reachable s → SimIndex.precompute s = true → ghost_slot s pos →
  ∃ e s', SimIndex.index_documents fresh_docs s = Err e s'.
Proof.
  intros Hr Hpre [Hlt Hnone].
  apply (index_documents_ghost fresh_docs s pos); [done| |done].
  by rewrite <-(reachable_aligned s Hr).
Qed.

Lemma ghost_stays s s' pos :
  reachable s → SimIndex.precompute s = true → ghost_slot s pos →
  later s s' → ghost_slot s' pos.
Proof.
  intros Hr Hpre Hghost.
  induction 1 as [|s' docs Hl IH|s' ids Hl IH]; [done|..].
  - pose proof (later_reachable _ _ Hr Hl) as Hr'.
    destruct (ghost_raises docs s' pos Hr') as (e & s'' & Hrun);
      [by rewrite (later_precompute s s')|done|].
    pose proof (index_documents_spec docs s'
                  (proj1 (reachable_sound_cache s' Hr'))) as Hspec.
    rewrite Hrun in *. simpl.
    destruct Hspec as ((_ & Hpos & Hlen & _) & _).
    unfold ghost_slot. by rewrite Hpos, Hlen.
  - pose proof (later_reachable _ _ Hr Hl) as Hr'.
    destruct (reachable_sound_cache s' Hr') as [Hs' _].
    destruct IH as [Hlt Hnone]. split.
    + by destruct (delete_frame ids s') as [-> _].
    + destruct (SimIndex.pos2id (state_of (SimIndex.delete ids s')) !! pos)
        as [docid|] eqn:Hpos; [|done].
      apply (delete_pos2id _ _ _ _ Hs') in Hpos. congruence.
Qed.
End ghost_slots.

Lemma returns_full `{Backend} (s s' : SimIndex.t)
    (fresh_docs : list (DocId * Doc)) :
  reachable s → SimIndex.index_documents fresh_docs s = Ok tt s' →
  SimIndex.precompute s = false ∨ full s.
Proof.
  intros Hr Hrun. destruct (SimIndex.precompute s) eqn:Hpre; [right|by left].
  apply full_no_ghost. intros pos Hghost.
  destruct (ghost_raises fresh_docs s pos Hr Hpre Hghost) as (e & s'' & Hfail).
  congruence.
Qed.

Lemma full_returns `{Backend} (s : SimIndex.t)
    (fresh_docs : list (DocId * Doc)) :
  reachable s → SimIndex.precompute s = false ∨ full s →
  ∃ s', SimIndex.index_documents fresh_docs s = Ok tt s'.
Proof.
  intros Hr Hcase. destruct (reachable_sound_cache s Hr) as [Hs _].
  destruct (SimIndex.precompute s) eqn:Hpre.
  - destruct Hcase as [|Hfull]; [done|].
    pose proof (index_documents_steps fresh_docs s Hs Hpre) as Hsteps.
    cbv zeta in Hsteps.
    destruct (update_old_full
                (map unitvec (map doc2vec fresh_docs.*2)) s Hfull
                (reachable_cached s Hr Hpre) (reachable_aligned s Hr))
      as [s1 Hrun1].
    rewrite Hrun1 in Hsteps. destruct Hsteps as (s3 & s4 & _ & _ & -> & _).
    by exists s4.
  - pose proof (index_documents_spec fresh_docs s Hs) as Hspec.
    destruct (SimIndex.index_documents fresh_docs s) as [[] s'|e s'].
    + by exists s'.
    + destruct Hspec as (_ & _ & ?). congruence.
Qed.

(** X3.  [index_documents] returns exactly when the index does not precompute
    or has no ghost slot. *)
Theorem index_documents_returns_iff `{Backend} (s : SimIndex.t)
    (fresh_docs : list (DocId * Doc)) :
  reachable s →
  (∃ s', SimIndex.index_documents fresh_docs s = Ok tt s')
  ↔ SimIndex.precompute s = false ∨ full s.
Proof.
  intros Hr. split.
  - intros [s' Hrun]. by apply (returns_full s s' fresh_docs).
  - by apply full_returns.
Qed.

Lemma full_ab : full ab.
Proof.
  intros pos Hlt. change (pos < 2)%nat in Hlt.
  destruct pos as [|[|pos]]; [vm_compute; eexists; reflexivity..|lia].
Qed.

Lemma index_documents_returns_iff_witness :
  reachable ab ∧ ∃ s', index [("c", [4; 3])] ab = Ok tt s'.
Proof.
  split; [exact reachable_ab|].
  exact (proj2 (index_documents_returns_iff (H:=unit5) ab [("c", [4; 3])]
                  reachable_ab) (or_intror full_ab)).
Defined.

(** X4.  Once a precomputing index has a ghost slot, no later call of
    [index_documents] returns. *)
Theorem ghost_slot_forever `{Backend} (s s' : SimIndex.t) (pos : nat)
    (fresh_docs : list (DocId * Doc)) :
  reachable s → SimIndex.precompute s = true → ghost_slot s pos →
  later s s' →
  ghost_slot s' pos
  ∧ ∃ e s'', SimIndex.index_documents fresh_docs s' = Err e s''.
Proof.
  intros Hr Hpre Hghost Hl.
  pose proof (ghost_stays s s' pos Hr Hpre Hghost Hl) as Hghost'.
  split; [done|].
  apply (ghost_raises fresh_docs s' pos); [|  |done].
  - by apply (later_reachable s).
  - by rewrite (later_precompute s s').
Qed.

Lemma ghost_slot_forever_witness :
  reachable ab_without_b
  ∧ SimIndex.precompute ab_without_b = true
  ∧ ghost_slot ab_without_b 1
  ∧ later ab_without_b ab_without_b_failed
  ∧ ghost_slot ab_without_b_failed 1
  ∧ ∃ e s'', index [("d", [5; 0])] ab_without_b_failed = Err e s''.
Proof.
  assert (reachable ab_without_b) as Hr
    by apply reachable_delete, reachable_ab.
  assert (SimIndex.precompute ab_without_b = true) as Hpre
    by (vm_compute; reflexivity).
  assert (ghost_slot ab_without_b 1) as Hghost
    by (split; [change (1 < 2)%nat; lia|vm_compute; reflexivity]).
  assert (later ab_without_b ab_without_b_failed) as Hl
    by exact (later_index (H:=unit5) ab_without_b ab_without_b
                [("c", [4; 3])] (later_now ab_without_b)).
  split_and!; [exact Hr|exact Hpre|exact Hghost|exact Hl|..].
  - exact (proj1 (ghost_slot_forever (H:=unit5) ab_without_b
                    ab_without_b_failed 1 [("d", [5; 0])] Hr Hpre Hghost Hl)).
  - exact (proj2 (ghost_slot_forever (H:=unit5) ab_without_b
                    ab_without_b_failed 1 [("d", [5; 0])] Hr Hpre Hghost Hl)).
Defined.

(** X5.  A [delete] that returns leaves a ghost slot at the position of every id
    it removed. *)
Theorem delete_leaves_ghost `{Backend} (s s' : SimIndex.t)
    (docids : list DocId) (docid : DocId) :
  reachable s → SimIndex.delete docids s = Ok tt s' → docid ∈ docids →
  ∃ pos, SimIndex.id2pos s !! docid = Some pos
         ∧ SimIndex.id2pos s' !! docid = None
         ∧ ghost_slot s' pos
         ∧ stored_vectors s' !! pos = stored_vectors s !! pos.
Proof.
  intros Hr Hrun Hin. destruct (reachable_sound_cache s Hr) as [Hs _].
  destruct (delete_Ok docids s s' Hs Hrun) as ([_ Hback] & Hid & Hlen & Hrest).
  destruct (SimIndex.id2pos s !! docid) as [pos|] eqn:Hpos.
  2:{ destruct (delete_loop_missing docids s docid Hin Hpos) as (e & s1 & Hloop).
      rewrite delete_eq, Hloop in Hrun. done. }
  assert (SimIndex.id2pos s' !! docid = None) as Hgone.
  { rewrite Hid, lookup_foldl_delete. by rewrite decide_True. }
  exists pos. split_and!; [done|done| |].
  - destruct Hs as [Hf Hb]. split.
    + rewrite Hlen. by apply (Hb pos docid), Hf.
    + destruct (SimIndex.pos2id s' !! pos) as [d|] eqn:Hd; [|done].
      apply Hback in Hd. pose proof Hd as Hd'.
      rewrite Hid, lookup_foldl_delete in Hd'.
      destruct (decide (d ∈ docids)); [done|].
      assert (d = docid) as -> by (by eapply (sound_injective s); [split|..]).
      congruence.
  - by rewrite (stored_vectors_same_rest _ _ Hrest).
Qed.

Lemma delete_leaves_ghost_witness :
  reachable abc
  ∧ delete_ids ["b"] abc = Ok tt abc_without_b
  ∧ "b" ∈ ["b"]
  ∧ ∃ pos, SimIndex.id2pos abc !! "b" = Some pos
           ∧ SimIndex.id2pos abc_without_b !! "b" = None
           ∧ ghost_slot abc_without_b pos
           ∧ stored_vectors abc_without_b !! pos = stored_vectors abc !! pos.
Proof.
  assert (delete_ids ["b"] abc = Ok tt abc_without_b) as Hrun
    by (vm_compute; reflexivity).
  assert ("b" ∈ ["b"]) as Hin by (apply elem_of_cons; by left).
  split_and!; [exact reachable_abc|exact Hrun|exact Hin|].
  exact (delete_leaves_ghost (H:=unit5) abc abc_without_b ["b"] "b"
           reachable_abc Hrun Hin).
Defined.

(** *** The entries of new documents *)

(** X6.  Where a batch of distinct ids ends up: the [i]-th document of the batch
    is mapped, in both directions, to the [i]-th position after the old
    counter, and the vector stored there is its own. *)
Theorem index_documents_places `{Backend} (s s' : SimIndex.t)
    (fresh_docs : list (DocId * Doc)) (i : nat) (docid : DocId) (doc : Doc) :
  reachable s → NoDup fresh_docs.*1 →
  SimIndex.index_documents fresh_docs s = Ok tt s' →
  fresh_docs !! i = Some (docid, doc) →
  let pos := (SimIndex.length s + i)%nat in
  SimIndex.id2pos s' !! docid = Some pos
  ∧ SimIndex.pos2id s' !! pos = Some docid
  ∧ stored_vectors s' !! pos = Some (stored_alone (SimIndex.precompute s) doc).
Proof.
  intros Hr Hnd Hrun Hi pos.
  destruct (reachable_sound_cache s Hr) as [Hs _].
  destruct (index_documents_assigned fresh_docs s s' Hs Hrun) as (_ & _ & Hat).
  pose proof (index_documents_spec fresh_docs s Hs) as Hspec.
  rewrite Hrun in Hspec. destruct Hspec as ([Hf' _] & _ & Hstore & _).
  assert (SimIndex.id2pos s' !! docid = Some pos) as Hpos.
  { apply (Hat Hnd i). by rewrite list_lookup_fmap, Hi. }
  split_and!; [done|by apply Hf'|].
  rewrite Hstore. unfold pos. rewrite (reachable_aligned s Hr).
  rewrite lookup_app_r by lia.
  replace (length (stored_vectors s) + i - length (stored_vectors s))%nat
    with i by lia.
  unfold stored_batch, stored_alone.
  destruct (SimIndex.precompute s).
  - by rewrite list_lookup_map, (lookup_tmpindex _ _ _ _ Hi).
  - apply (lookup_tmpindex _ _ _ _ Hi).
Qed.

Lemma index_documents_places_witness :
  reachable (SimIndex.init (H:=unit5) true)
  ∧ NoDup [("a", ([3; 4] : list Z)); ("b", [5; 0]); ("c", [0; 5])].*1
  ∧ index [("a", [3; 4]); ("b", [5; 0]); ("c", [0; 5])] (SimIndex.init true)
    = Ok tt abc
  ∧ [("a", ([3; 4] : list Z)); ("b", [5; 0]); ("c", [0; 5])] !! 1%nat
    = Some ("b", [5; 0])
  ∧ SimIndex.id2pos abc !! "b" = Some 1%nat
  ∧ SimIndex.pos2id abc !! 1%nat = Some "b"
  ∧ stored_vectors abc !! 1%nat = Some (stored_alone (H:=unit5) true [5; 0]).
Proof.
  assert (NoDup [("a", ([3; 4] : list Z)); ("b", [5; 0]); ("c", [0; 5])].*1)
    as Hnd.
  { apply (bool_decide_unpack _). vm_compute. exact I. }
  assert (index [("a", [3; 4]); ("b", [5; 0]); ("c", [0; 5])]
            (SimIndex.init true) = Ok tt abc) as Hrun
    by (vm_compute; reflexivity).
  split_and!; [apply reachable_init|exact Hnd|exact Hrun|reflexivity|..];
    apply (index_documents_places (H:=unit5) (SimIndex.init true) abc
             [("a", [3; 4]); ("b", [5; 0]); ("c", [0; 5])] 1 "b" [5; 0]
             (reachable_init true) Hnd Hrun eq_refl).
Defined.

(** X7.  The entry a precomputing index stores for a new document: the scores
    of the document's vector, normalised once, against the whole store after
    the call, the document and the rest of its batch included, under the ids
    of the final [pos2id]. *)
Theorem new_document_entry `{Backend} (s s' : SimIndex.t)
    (fresh_docs : list (DocId * Doc)) (docid : DocId) (doc : Doc) :
  reachable s → SimIndex.precompute s = true → NoDup fresh_docs.*1 →
  SimIndex.index_documents fresh_docs s = Ok tt s' →
  (docid, doc) ∈ fresh_docs →
  SimIndex.id2sims s' !! docid
  = Some (SimIndex.sims2scores s'
            (map (dot (unitvec (doc2vec doc))) (stored_vectors s'))).
Proof.
  intros Hr Hpre Hnd Hrun Hin. by apply (new_entry_computed fresh_docs s).
Qed.

Lemma new_document_entry_witness :
  reachable ab
  ∧ SimIndex.precompute ab = true
  ∧ NoDup [("c", ([4; 3] : list Z))].*1
  ∧ index [("c", [4; 3])] ab = Ok tt ab_then_c
  ∧ ("c", [4; 3]) ∈ [("c", ([4; 3] : list Z))]
  ∧ SimIndex.id2sims ab_then_c !! "c"
    = Some (SimIndex.sims2scores ab_then_c
              (map (dot_product [4; 3]) (stored_vectors ab_then_c))).
Proof.
  assert (SimIndex.precompute ab = true) as Hpre by (vm_compute; reflexivity).
  assert (NoDup [("c", ([4; 3] : list Z))].*1) as Hnd
    by (apply NoDup_singleton).
  assert (index [("c", [4; 3])] ab = Ok tt ab_then_c) as Hrun
    by (vm_compute; reflexivity).
  assert (("c", [4; 3]) ∈ [("c", ([4; 3] : list Z))]) as Hin
    by (apply elem_of_cons; by left).
  split_and!; [exact reachable_ab|exact Hpre|exact Hnd|exact Hrun|exact Hin|].
  exact (new_document_entry (H:=unit5) ab ab_then_c [("c", [4; 3])] "c"
           [4; 3] reachable_ab Hpre Hnd Hrun Hin).
Defined.

(** *** Replacing a document *)

(** An id of the batch that was mapped before leaves a ghost slot at its old
    position. *)
Lemma reindex_ghost `{Backend} (s s' : SimIndex.t)
    (fresh_docs : list (DocId * Doc)) (docid : DocId) (old : nat) :
  reachable s → SimIndex.index_documents fresh_docs s = Ok tt s' →
  docid ∈ fresh_docs.*1 → SimIndex.id2pos s !! docid = Some old →
  reachable s' ∧ SimIndex.precompute s' = SimIndex.precompute s
  ∧ ghost_slot s' old.
Proof.
  intros Hr Hrun Hin Hold.
  destruct (reachable_sound_cache s Hr) as [Hs _].
  destruct (readd_remaps fresh_docs s s' docid old Hs Hrun Hin Hold)
    as (_ & Hnone & _).
  pose proof (index_documents_spec fresh_docs s Hs) as Hspec.
  rewrite Hrun in Hspec. destruct Hspec as (_ & (Hlen & _) & _ & Hpre' & _).
  split_and!; [|done|].
  - replace s' with (state_of (SimIndex.index_documents fresh_docs s))
      by (by rewrite Hrun). by constructor.
  - split; [|done]. destruct Hs as [Hf Hb].
    pose proof (Hb _ _ (Hf _ _ Hold)). lia.
Qed.

(** X8.  After a call that re-indexes an id the index already maps, no later
    call of [index_documents] on a precomputing index returns. *)
Theorem reindex_blocks_indexing `{Backend} (s s' s'' : SimIndex.t)
    (fresh_docs later_docs : list (DocId * Doc)) (docid : DocId) :
  reachable s → SimIndex.precompute s = true →
  SimIndex.index_documents fresh_docs s = Ok tt s' →
  docid ∈ fresh_docs.*1 → is_Some (SimIndex.id2pos s !! docid) →
  later s' s'' →
  ∃ e t, SimIndex.index_documents later_docs s'' = Err e t.
Proof.
  intros Hr Hpre Hrun Hin [old Hold] Hlater.
  destruct (reindex_ghost s s' fresh_docs docid old Hr Hrun Hin Hold)
    as (Hr' & Hpre' & Hghost).
  apply (ghost_raises later_docs s'' old).
  - by apply (later_reachable s').
  - rewrite (later_precompute s' s''); [congruence|done..].
  - apply (ghost_stays s' s'' old); [done|congruence|done..].
Qed.

Lemma reindex_blocks_indexing_witness :
  reachable ab
  ∧ SimIndex.precompute ab = true
  ∧ index [("a", [4; 3])] ab = Ok tt ab_a_again
  ∧ "a" ∈ [("a", ([4; 3] : list Z))].*1
  ∧ is_Some (SimIndex.id2pos ab !! "a")
  ∧ later ab_a_again ab_a_again
  ∧ ∃ e t, index [("c", [0; 5])] ab_a_again = Err e t.
Proof.
  assert (SimIndex.precompute ab = true) as Hpre by (vm_compute; reflexivity).
  assert (index [("a", [4; 3])] ab = Ok tt ab_a_again) as Hrun
    by (vm_compute; reflexivity).
  assert ("a" ∈ [("a", ([4; 3] : list Z))].*1) as Hin
    by (apply elem_of_cons; by left).
  assert (is_Some (SimIndex.id2pos ab !! "a")) as Hmapped
    by (vm_compute; eexists; reflexivity).
  split_and!; [exact reachable_ab|exact Hpre|exact Hrun|exact Hin|exact Hmapped
              |exact (later_now ab_a_again)|].
  exact (reindex_blocks_indexing (H:=unit5) ab ab_a_again ab_a_again
           [("a", [4; 3])] [("c", [0; 5])] "a" reachable_ab Hpre Hrun Hin
           Hmapped (later_now ab_a_again)).
Defined.

(** *** delete *)

Section delete_loop.
Context `{Backend}.
Implicit Types s : SimIndex.t.

Lemma delete_loop_Ok_iff docids s :
  (∃ s1, for_each docids SimIndex.delete_one s = Ok tt s1)
  ↔ NoDup docids ∧ ∀ docid, docid ∈ docids →
                             is_Some (SimIndex.id2pos s !! docid).
Proof.
  revert s. induction docids as [|d ds IH]; intros s; simpl.
  - split; [|by exists s]. intros _. split; [constructor|].
    intros ? []%elem_of_nil.
  - unfold bind. rewrite delete_one_eq.
    destruct (SimIndex.id2pos s !! d) as [pos|] eqn:Hd.
    + rewrite IH. simpl. split.
      * intros [Hnd Hall]. split.
        -- constructor; [|done]. intros Hin. destruct (Hall d Hin) as [? Hx].
           by rewrite lookup_delete_eq in Hx.
        -- intros docid [->|Hin]%elem_of_cons; [by eexists|].
           destruct (Hall docid Hin) as [p Hp].
           apply lookup_delete_Some in Hp as [_ Hp]. by eexists.
      * intros [[Hnotin Hnd]%NoDup_cons Hall]. split; [done|].
        intros docid Hin. destruct (Hall docid) as [p Hp]; [by right|].
        exists p. apply lookup_delete_Some. split; [|done]. by intros ->.
    + split; [by intros [? ?]|]. intros [_ Hall].
      destruct (Hall d) as [? ?]; [left|congruence].
Qed.
End delete_loop.

(** X9.  [delete] returns exactly when the ids are pairwise distinct and all
    mapped.  It then removes exactly these ids from both id maps, which are
    inverse of each other afterwards, and leaves the counter, the store and the
    SimilarityCache alone. *)
Theorem delete_returns_iff `{Backend} (s : SimIndex.t) (docids : list DocId) :
  reachable s →
  ((∃ s', SimIndex.delete docids s = Ok tt s')
   ↔ NoDup docids
     ∧ ∀ docid, docid ∈ docids → is_Some (SimIndex.id2pos s !! docid))
  ∧ ∀ s', SimIndex.delete docids s = Ok tt s' →
      (simindex_len s' + length docids = simindex_len s)%nat
      ∧ (∀ docid, SimIndex.id2pos s' !! docid
                  = if decide (docid ∈ docids) then None
                    else SimIndex.id2pos s !! docid)
      ∧ inverse_maps s'
      ∧ SimIndex.length s' = SimIndex.length s
      ∧ stored_vectors s' = stored_vectors s
      ∧ SimIndex.id2sims s' = SimIndex.id2sims s.
Proof.
  intros Hr. destruct (reachable_sound_cache s Hr) as [Hs _]. split.
  - rewrite <-delete_loop_Ok_iff. rewrite delete_eq.
    pose proof (delete_no_assertion docids s
                  "duplicate ids or positions detected") as Hno.
    rewrite delete_eq in Hno.
    destruct (for_each docids SimIndex.delete_one s) as [[] s1|e s1].
    + cbv zeta in *. split; [by exists s1|]. intros _.
      destruct (Nat.eqb _ _); [by eexists|]. by edestruct Hno.
    + split; by intros [? ?].
  - intros s' Hrun.
    destruct (delete_Ok docids s s' Hs Hrun) as (Hexact & Hid & Hlen & Hrest).
    pose proof Hrun as Hrun'. rewrite delete_eq in Hrun'.
    pose proof (delete_loop docids s) as Hloop.
    destruct (for_each docids SimIndex.delete_one s) as [[] s1|e s1]; [|done].
    cbv zeta in Hrun'. destruct (Nat.eqb _ _); [|done].
    injection Hrun' as <-. simpl in *.
    split_and!.
    + unfold simindex_len. by destruct Hloop as (_ & ? & _).
    + intros docid. by apply removed_lookup.
    + by apply exact_inverse_maps.
    + done.
    + by apply stored_vectors_same_rest.
    + by destruct Hrest as (? & _).
Qed.

Lemma delete_returns_iff_witness :
  reachable abc ∧ ∃ s', delete_ids ["a"; "c"] abc = Ok tt s'.
Proof.
  split; [exact reachable_abc|].
  apply (proj2 (proj1 (delete_returns_iff (H:=unit5) abc ["a"; "c"]
                         reachable_abc))).
  split.
  - apply (bool_decide_unpack _). vm_compute. exact I.
  - intros docid [->|[->|[]%elem_of_nil]%elem_of_cons]%elem_of_cons;
      vm_compute; eexists; reflexivity.
Defined.

(** *** How many pairs sims2scores collects *)

Lemma live_pairs_seq_length (pos2id : gmap nat DocId) sims (n : nat) :
  (∀ pos docid, pos2id !! pos = Some docid → (pos < n)%nat) →
  length (live_pairs pos2id sims (seq 0 n)) = size pos2id.
Proof.
  revert pos2id. induction n as [|n IH]; intros pos2id Hb.
  - simpl. symmetry. apply map_size_empty_iff, map_empty. intros pos.
    destruct (pos2id !! pos) eqn:Hpos; [|done]. apply Hb in Hpos. lia.
  - rewrite seq_S. unfold live_pairs in *. rewrite omap_app, length_app.
    rewrite (list_omap_ext _
               (λ pos, (λ docid, (docid, at_pos sims pos))
                         <$> delete n pos2id !! pos) (seq 0 n) (seq 0 n)).
    2:{ apply Forall2_same_length_lookup. split; [done|].
        intros i x y Hx Hy. assert (x = y) as -> by congruence.
        apply lookup_seq in Hy as [-> ?]. simpl.
        by rewrite lookup_delete_ne by lia. }
    rewrite IH.
    2:{ intros pos docid [Hne Hpos]%lookup_delete_Some. apply Hb in Hpos. lia. }
    rewrite map_size_delete. simpl.
    destruct (pos2id !! n) as [docid|] eqn:Hn; simpl; [|lia].
    assert (size pos2id ≠ 0%nat); [|lia].
    apply map_size_non_empty_iff. intros ->. by rewrite lookup_empty in Hn.
Qed.

Lemma live_pairs_length (pos2id : gmap nat DocId) sims order (n : nat) :
  order ≡ₚ seq 0 n →
  (∀ pos docid, pos2id !! pos = Some docid → (pos < n)%nat) →
  length (live_pairs pos2id sims order) = size pos2id.
Proof.
  intros Hperm Hb. rewrite <-(live_pairs_seq_length pos2id sims n Hb).
  unfold live_pairs. by rewrite Hperm.
Qed.

Lemma desc_take_drop (l : Sims) n kept gone :
  desc l → kept ∈ take n l → gone ∈ drop n l → gone.2 ≤ kept.2.
Proof.
  intros Hdesc Hk Hg. rewrite <-(take_drop n l) in Hdesc.
  apply (StronglySorted_app_1_elem_of _ _ _ _ _ Hdesc Hk Hg).
Qed.

(** X10.  Given one score per allocated position, [sims2scores] returns
    [TOP_SIMS] pairs or one pair per mapped position, whichever is less.
    Every mapped position is among them, with its id and absolute score, when
    there are at most [TOP_SIMS]; a mapped position that is left out scores no
    more than any pair returned. *)
Theorem sims2scores_complete `{Backend} (s : SimIndex.t) (sims : list Z) :
  reachable s → length sims = SimIndex.length s →
  let l := SimIndex.sims2scores s sims in
  length l = (TOP_SIMS `min` size (SimIndex.pos2id s))%nat
  ∧ ∀ pos docid, SimIndex.pos2id s !! pos = Some docid →
      let score := Z.abs (at_pos sims pos) in
      ((size (SimIndex.pos2id s) ≤ TOP_SIMS)%nat → (docid, score) ∈ l)
      ∧ ((docid, score) ∈ l ∨ ∀ item, item ∈ l → score ≤ item.2).
Proof.
  intros Hr Hlen l. destruct (reachable_sound_cache s Hr) as [[_ Hb] _].
  subst l. rewrite sims2scores_eq.
  set (abs := map Z.abs sims).
  set (all := live_pairs (SimIndex.pos2id s) abs (reverse (argsort abs))).
  assert (length all = size (SimIndex.pos2id s)) as Hall.
  { apply (live_pairs_length _ _ _ (length abs)).
    - by rewrite reverse_Permutation, argsort_perm.
    - intros pos docid Hpos%Hb. unfold abs. rewrite length_map. lia. }
  assert (∀ pos docid, SimIndex.pos2id s !! pos = Some docid →
            (docid, Z.abs (at_pos sims pos)) ∈ all) as Hin.
  { intros pos docid Hpos. apply elem_of_live_pairs. exists pos. split_and!.
    - apply elem_of_argsort_reverse. unfold abs. rewrite length_map.
      apply Hb in Hpos. lia.
    - done.
    - unfold abs, at_pos. by rewrite <-(map_nth Z.abs). }
  split.
  - rewrite length_take, Hall. lia.
  - intros pos docid Hpos score. specialize (Hin pos docid Hpos). split.
    + intros Hsmall. rewrite take_ge by lia. done.
    + rewrite <-(take_drop TOP_SIMS all) in Hin.
      apply elem_of_app in Hin as [Hin|Hin]; [by left|right].
      intros item Hitem.
      apply (desc_take_drop all TOP_SIMS item _) in Hin; [done| |done].
      apply live_pairs_desc, argsort_reverse_sorted.
Qed.

Lemma sims2scores_complete_witness :
  reachable abc
  ∧ length [3; -5; 4] = SimIndex.length abc
  ∧ length (SimIndex.sims2scores abc [3; -5; 4])
    = (TOP_SIMS `min` size (SimIndex.pos2id abc))%nat.
Proof.
  assert (length [3; -5; 4] = SimIndex.length abc) as Hlen
    by (vm_compute; reflexivity).
  split_and!; [exact reachable_abc|exact Hlen|].
  exact (proj1 (sims2scores_complete (H:=unit5) abc [3; -5; 4]
                  reachable_abc Hlen)).
Defined.

(** *** The counter, the store and the queries *)

Lemma similarity_by_id_lookup `{Backend} (q : Similarity.t) pos vec :
  q !! pos = Some vec →
  Similarity.similarity_by_id q pos = Some (Similarity.getitem false q vec).
Proof. unfold Similarity.similarity_by_id. by intros ->. Qed.

(** X11.  The position counter is the number of stored vectors, and the number
    of documents [len] reports is at most the number of mapped positions,
    which is at most the counter. *)
Theorem counter_counts_vectors `{Backend} (s : SimIndex.t) :
  reachable s →
  SimIndex.length s = length (stored_vectors s)
  ∧ (simindex_len s ≤ size (SimIndex.pos2id s) ≤ SimIndex.length s)%nat.
Proof.
  intros Hr. split; [by apply reachable_aligned|].
  by apply sound_len_le, reachable_sound_cache.
Qed.

Lemma counter_counts_vectors_witness :
  reachable abc_without_b
  ∧ SimIndex.length abc_without_b = length (stored_vectors abc_without_b)
  ∧ (simindex_len abc_without_b ≤ size (SimIndex.pos2id abc_without_b)
     ≤ SimIndex.length abc_without_b)%nat.
Proof.
  assert (reachable abc_without_b) as Hr
    by apply reachable_delete, reachable_abc.
  split; [exact Hr|]. exact (counter_counts_vectors abc_without_b Hr).
Defined.

(** X12.  The store is append-only: whatever is called later, the vectors stored
    now stay where they are and the counter does not decrease. *)
Theorem store_append_only `{Backend} (s s' : SimIndex.t) :
  reachable s → later s s' →
  stored_vectors s `prefix_of` stored_vectors s'
  ∧ (SimIndex.length s ≤ SimIndex.length s')%nat.
Proof.
  intros Hr. induction 1 as [|s' docs Hl IH|s' ids Hl IH]; [done|..].
  - pose proof (later_reachable _ _ Hr Hl) as Hr'.
    pose proof (index_documents_spec docs s'
                  (proj1 (reachable_sound_cache s' Hr'))) as Hspec.
    destruct IH as [Hpre Hlen].
    destruct (SimIndex.index_documents docs s') as [[] s''|e s'']; simpl.
    + destruct Hspec as (_ & (Hlen' & _) & -> & _). split; [|lia].
      by apply prefix_app_r.
    + destruct Hspec as ((_ & _ & -> & -> & _) & _). done.
  - destruct (delete_frame ids s') as [-> Hrest].
    by rewrite (stored_vectors_same_rest _ _ Hrest).
Qed.

Lemma store_append_only_witness :
  reachable ab ∧ later ab ab_then_c
  ∧ stored_vectors ab `prefix_of` stored_vectors ab_then_c
  ∧ (SimIndex.length ab ≤ SimIndex.length ab_then_c)%nat.
Proof.
  assert (later ab ab_then_c) as Hl
    by exact (later_index (H:=unit5) ab ab [("c", [4; 3])] (later_now ab)).
  split; [exact reachable_ab|]. split; [exact Hl|].
  exact (store_append_only ab ab_then_c reachable_ab Hl).
Defined.

(** X13.  [sims_by_doc] raises only on an index [index_documents] was never
    called on, which holds nothing; otherwise it returns what [sims2scores]
    makes of one score per allocated position, the score of the normalised
    query against the vector stored there. *)
Theorem sims_by_doc_outcome `{Backend} (s : SimIndex.t) (doc : Doc) :
  reachable s →
  match SimIndex.sims_by_doc doc s with
  | Ok l s' =>
      s' = s
      ∧ ∃ sims, l = SimIndex.sims2scores s sims
                ∧ sims = map (dot (unitvec (doc2vec doc))) (stored_vectors s)
                ∧ length sims = SimIndex.length s
  | Err e s' =>
      e = AttributeError "qindex" ∧ s' = s
      ∧ SimIndex.length s = 0%nat ∧ simindex_len s = 0%nat
  end.
Proof.
  intros Hr. pose proof (reachable_aligned s Hr) as Hal. unfold aligned in Hal.
  pose proof (sound_len_le s (proj1 (reachable_sound_cache s Hr))) as Hle.
  unfold SimIndex.sims_by_doc, bind, get. unfold stored_vectors in *.
  destruct (SimIndex.qindex s) as [q|]; simpl in *.
  - split; [done|]. exists (map (dot (unitvec (doc2vec doc))) q).
    split_and!; [done..|]. by rewrite length_map.
  - split_and!; [done..|lia].
Qed.

Lemma sims_by_doc_outcome_witness :
  reachable abc
  ∧ match SimIndex.sims_by_doc (H:=unit5) [4; 3] abc with
    | Ok l s' =>
        s' = abc
        ∧ ∃ sims, l = SimIndex.sims2scores abc sims
                  ∧ sims = map (dot_product [4; 3]) (stored_vectors abc)
                  ∧ length sims = SimIndex.length abc
    | Err e s' =>
        e = AttributeError "qindex" ∧ s' = abc
        ∧ SimIndex.length abc = 0%nat ∧ simindex_len abc = 0%nat
    end.
Proof.
  split; [exact reachable_abc|].
  exact (sims_by_doc_outcome (H:=unit5) abc [4; 3] reachable_abc).
Defined.

(** X14.  An id that [id2pos] maps can always be queried.  A precomputing index
    answers with the stored entry; the others with what [sims2scores] makes of
    the scores of the vector stored for the id against the whole store.  An
    id that is not mapped raises [KeyError] in an index that does not
    precompute and has been given to [index_documents] before. *)
Theorem sims_by_id_outcome `{Backend} (s : SimIndex.t) (docid : DocId) :
  reachable s →
  match SimIndex.id2pos s !! docid with
  | Some pos =>
      ∃ vec, stored_vectors s !! pos = Some vec
        ∧ if SimIndex.precompute s
          then ∃ l, SimIndex.id2sims s !! docid = Some l
                    ∧ SimIndex.sims_by_id docid s = Ok l s
          else SimIndex.sims_by_id docid s
               = Ok (SimIndex.sims2scores s
                       (map (dot vec) (stored_vectors s))) s
  | None =>
      SimIndex.precompute s = false → is_Some (SimIndex.qindex s) →
      SimIndex.sims_by_id docid s = Err (KeyError_docid docid) s
  end.
Proof.
  intros Hr. pose proof (reachable_aligned s Hr) as Hal. unfold aligned in Hal.
  destruct (reachable_sound_cache s Hr) as [[Hf Hb] _].
  unfold SimIndex.sims_by_id, bind, get.
  destruct (SimIndex.id2pos s !! docid) as [pos|] eqn:Hpos.
  - pose proof (Hf _ _ Hpos) as Hid. pose proof (Hb _ _ Hid) as Hlt.
    rewrite Hal in Hlt. destruct (lookup_lt_is_Some_2 _ _ Hlt) as [vec Hvec].
    exists vec. split; [done|].
    destruct (SimIndex.precompute s) eqn:Hpre.
    + destruct (reachable_cached s Hr Hpre pos docid Hid) as [l Hl].
      exists l. by rewrite Hl.
    + simpl. unfold stored_vectors in *.
      destruct (SimIndex.qindex s) as [q|]; simpl in *.
      * by rewrite (similarity_by_id_lookup q pos vec Hvec).
      * by rewrite lookup_nil in Hvec.
  - by intros -> [q ->].
Qed.

Lemma sims_by_id_outcome_witness :
  reachable abc_live
  ∧ SimIndex.id2pos abc_live !! "c" = Some 2%nat
  ∧ ∃ vec, stored_vectors abc_live !! 2%nat = Some vec
      ∧ SimIndex.sims_by_id "c" abc_live
        = Ok (SimIndex.sims2scores abc_live
                (map (dot_product vec) (stored_vectors abc_live))) abc_live.
Proof.
  assert (reachable abc_live) as Hr by apply reachable_index, reachable_init.
  assert (SimIndex.id2pos abc_live !! "c" = Some 2%nat) as Hpos
    by (vm_compute; reflexivity).
  split_and!; [exact Hr|exact Hpos|].
  pose proof (sims_by_id_outcome (H:=unit5) abc_live "c" Hr) as Hout.
  rewrite Hpos in Hout. exact Hout.
Defined.

(** *** SimServer *)

Section server_buffer.
Context `{Backend}.
Implicit Types s : SimServer.t.

Lemma for_each_app {S A} (xs ys : list A) (body : A → M S unit) (st : S) :
  for_each (xs ++ ys) body st = (for_each xs body ;; for_each ys body) st.
Proof.
  revert st. induction xs as [|x xs IH]; intros st; simpl; [done|].
  unfold bind in *. destruct (body x st) as [[] st'|e st']; [|done].
  by rewrite IH.
Qed.

Lemma buffered_nil (buffer : gmap DocId Doc) : buffered [] buffer = buffer.
Proof. unfold buffered. simpl. by rewrite (left_id_L ∅ (∪)). Qed.

Lemma buffered_cons (d : DocId * Doc) documents (buffer : gmap DocId Doc) :
  buffered (d :: documents) buffer = buffered documents (<[(d.1) := (d.2)]> buffer).
Proof.
  unfold buffered. rewrite reverse_cons, list_to_map_app. simpl.
  rewrite <-(assoc_L (∪)). f_equal. destruct d as [k v]. simpl.
  rewrite insert_empty. by rewrite <-insert_union_singleton_l.
Qed.

Lemma add_documents_eq documents s :
  SimServer.add_documents documents s
  = Ok tt (SimServer.set_fresh_docs (buffered documents) s).
Proof.
  unfold SimServer.add_documents. revert s.
  induction documents as [|d ds IH]; intros s; simpl.
  - unfold ret, SimServer.set_fresh_docs. rewrite buffered_nil. by destruct s.
  - unfold bind, modify. rewrite IH. f_equal.
    unfold SimServer.set_fresh_docs. simpl. by rewrite buffered_cons.
Qed.

Lemma buffered_last pre docid doc post (buffer : gmap DocId Doc) :
  (docid ∉ post.*1) →
  buffered (pre ++ (docid, doc) :: post) buffer !! docid = Some doc.
Proof.
  revert buffer. induction pre as [|d pre IH]; intros buffer Hnotin.
  - simpl. rewrite buffered_cons. simpl. unfold buffered.
    apply lookup_union_Some_raw. right. split; [|by rewrite lookup_insert_eq].
    apply not_elem_of_list_to_map_1. rewrite fmap_reverse, elem_of_reverse.
    done.
  - simpl. rewrite buffered_cons. by apply IH.
Qed.

Lemma buffered_other documents docid (buffer : gmap DocId Doc) :
  (docid ∉ documents.*1) →
  buffered documents buffer !! docid = buffer !! docid.
Proof.
  intros Hnotin. unfold buffered. apply lookup_union_r.
  apply not_elem_of_list_to_map_1. by rewrite fmap_reverse, elem_of_reverse.
Qed.

Lemma index_eq corpus s :
  SimServer.simmodel s = true →
  SimServer.index corpus s
  = let idx := match SimServer.simindex s with
               | Some idx => if simindex_truth (Some idx) then idx
                             else SimIndex.init true
               | None => SimIndex.init true
               end in
    match SimIndex.index_documents (map_to_list (batch_of corpus s)) idx with
    | Ok _ idx' =>
        Ok tt {| SimServer.basename := SimServer.basename s;
                 SimServer.simindex := Some idx';
                 SimServer.simmodel := true;
                 SimServer.fresh_docs := ∅ |}
    | Err e idx' =>
        Err e {| SimServer.basename := SimServer.basename s;
                 SimServer.simindex := Some idx';
                 SimServer.simmodel := true;
                 SimServer.fresh_docs := batch_of corpus s |}
    end.
Proof.
  intros Hmodel. unfold SimServer.index. unfold bind at 1. unfold get at 1.
  rewrite Hmodel. unfold bind at 1. unfold ret at 1.
  unfold bind at 1.
  assert (∃ s0, (match corpus with
                 | Some documents =>
                     SimServer.flush true ;; SimServer.add_documents documents
                 | None => ret tt
                 end) s = Ok tt s0
                ∧ SimServer.fresh_docs s0 = batch_of corpus s
                ∧ SimServer.simindex s0 = SimServer.simindex s
                ∧ SimServer.simmodel s0 = true
                ∧ SimServer.basename s0 = SimServer.basename s)
    as (s0 & -> & Hbuf & Hidx & Hmod & Hname).
  { destruct corpus as [documents|]; simpl.
    - unfold bind, SimServer.flush, modify. rewrite add_documents_eq.
      eexists. split; [done|]. by split_and!.
    - by exists s. }
  unfold bind, get. rewrite Hidx. cbv zeta.
  destruct (SimServer.simindex s) as [idx|] eqn:Hsome.
  - destruct (simindex_truth (Some idx)); simpl.
    + unfold SimServer.on_simindex. rewrite Hidx, Hbuf.
      destruct (SimIndex.index_documents _ idx) as [[] idx'|e idx']; simpl.
      * unfold SimServer.set_fresh_docs, SimServer.set_simindex. simpl.
        by rewrite Hmod, Hname.
      * unfold SimServer.set_simindex. by rewrite Hmod, Hname, Hbuf.
    + unfold SimServer.on_simindex. simpl. rewrite Hbuf.
      destruct (SimIndex.index_documents _ _) as [[] idx'|e idx']; simpl.
      * unfold SimServer.set_fresh_docs, SimServer.set_simindex. simpl.
        by rewrite Hmod, Hname.
      * unfold SimServer.set_simindex. simpl. by rewrite Hmod, Hname, Hbuf.
  - simpl. unfold SimServer.on_simindex. simpl. rewrite Hbuf.
    destruct (SimIndex.index_documents _ _) as [[] idx'|e idx']; simpl.
    + unfold SimServer.set_fresh_docs, SimServer.set_simindex. simpl.
      by rewrite Hmod, Hname.
    + unfold SimServer.set_simindex. simpl. by rewrite Hmod, Hname, Hbuf.
Qed.
End server_buffer.

Section server_index.
Context `{Backend}.
Implicit Types s : SimServer.t.


Lemma full_init precompute : full (SimIndex.init precompute).
Proof. intros pos. simpl. lia. Qed.

Lemma index_documents_init (fresh_docs : list (DocId * Doc)) :
  ∃ idx', SimIndex.index_documents fresh_docs (SimIndex.init true)
          = Ok tt idx'.
Proof.
  apply full_returns; [constructor|]. right. apply full_init.
Qed.

Lemma well_formed_index corpus s :
  well_formed s → well_formed (state_of (SimServer.index corpus s)).
Proof.
  intros Hwf. destruct (SimServer.simmodel s) eqn:Hmodel.
  - rewrite (index_eq corpus s Hmodel). cbv zeta.
    set (idx := match SimServer.simindex s with
                | Some idx => if simindex_truth (Some idx) then idx
                              else SimIndex.init true
                | None => SimIndex.init true
                end).
    assert (reachable idx ∧ SimIndex.precompute idx = true) as [Hr Hpre].
    { subst idx. destruct (SimServer.simindex s) as [idx|] eqn:Hidx.
      - destruct (simindex_truth (Some idx)); [by apply Hwf|].
        split; [constructor|done].
      - split; [constructor|done]. }
    pose proof (index_documents_precompute
                  (map_to_list (batch_of corpus s)) idx
                  (proj1 (reachable_sound_cache idx Hr))) as Hpre'.
    pose proof (reachable_index idx (map_to_list (batch_of corpus s)) Hr)
      as Hr'.
    destruct (SimIndex.index_documents _ idx) as [[] idx'|e idx'];
      simpl in *; intros i [= <-]; split; congruence.
  - unfold SimServer.index, bind, get. rewrite Hmodel. done.
Qed.
End server_index.

(** X15.  [add_documents] called with a concatenation is [add_documents] called
    on its parts in turn; the buffer then holds, for each id, the last
    document given under it, and what it held for the other ids; the index and
    the model are not touched. *)
Theorem add_documents_concat `{Backend} (s : SimServer.t)
    (documents more : list (DocId * Doc)) :
  SimServer.add_documents (documents ++ more) s
  = (SimServer.add_documents documents ;; SimServer.add_documents more) s
  ∧ ∃ s', SimServer.add_documents documents s = Ok tt s'
      ∧ SimServer.simindex s' = SimServer.simindex s
      ∧ SimServer.simmodel s' = SimServer.simmodel s
      ∧ (∀ pre docid doc post,
           documents = pre ++ (docid, doc) :: post → (docid ∉ post.*1) →
           SimServer.fresh_docs s' !! docid = Some doc)
      ∧ (∀ docid, (docid ∉ documents.*1) →
           SimServer.fresh_docs s' !! docid = SimServer.fresh_docs s !! docid).
Proof.
  split; [apply for_each_app|].
  rewrite add_documents_eq. eexists. split; [done|]. simpl. split_and!.
  - done.
  - done.
  - intros pre docid doc post -> Hnotin. by apply buffered_last.
  - intros docid Hnotin. by apply buffered_other.
Qed.

(** X16.  Without a model, [index] raises [AttributeError] before it touches
    anything: the corpus is not buffered, the buffer is not cleared and no
    index is started. *)
Theorem index_without_model `{Backend} (s : SimServer.t)
    (corpus : option (list (DocId * Doc))) :
  SimServer.simmodel s = false →
  ∃ msg, SimServer.index corpus s = Err (AttributeError msg) s.
Proof.
  intros Hmodel. unfold SimServer.index, bind, get. rewrite Hmodel.
  by eexists.
Qed.

Lemma index_without_model_witness :
  SimServer.simmodel (SimServer.init (H:=unit5) "srv") = false
  ∧ ∃ msg, SimServer.index (H:=unit5) None (SimServer.init "srv")
           = Err (AttributeError msg) (SimServer.init "srv").
Proof.
  split; [reflexivity|].
  exact (index_without_model (H:=unit5) (SimServer.init "srv") None eq_refl).
Defined.

(** X17.  The index of a server stays a precomputing index in a state its
    methods can reach: [add_documents] and [index] keep it so, whether they
    return or raise, [find_similar] leaves the whole server as it is, and
    [drop_index] leaves no index. *)
Theorem server_index_well_formed `{Backend} (s : SimServer.t) :
  well_formed s →
  (∀ documents, well_formed (state_of (SimServer.add_documents documents s)))
  ∧ (∀ corpus, well_formed (state_of (SimServer.index corpus s)))
  ∧ (∀ doc min_score max_results,
       state_of (SimServer.find_similar doc min_score max_results s) = s)
  ∧ (∀ keep_model,
       SimServer.simindex (state_of (SimServer.drop_index keep_model s))
       = None).
Proof.
  intros Hwf. split_and!.
  - intros documents. by rewrite add_documents_eq.
  - intros corpus. by apply well_formed_index.
  - intros doc min_score max_results.
    unfold SimServer.find_similar, SimServer.on_simindex.
    destruct (SimServer.simindex s) as [idx|] eqn:Hidx; [|done].
    unfold find_similar, bind. fold (ranked_list doc).
    pose proof (ranked_list_state doc idx) as Hstate.
    destruct (ranked_list doc idx) as [sims idx'|e idx']; simpl in *;
      subst idx'; destruct s; simpl in *; by subst.
  - intros keep_model. unfold SimServer.drop_index, bind, modify.
    by destruct keep_model.
Qed.

Lemma well_formed_server (idx : SimIndex.t) :
  reachable idx → SimIndex.precompute idx = true →
  well_formed (server (Some idx)).
Proof. intros Hr Hpre i [= <-]. by split. Qed.

Lemma server_index_well_formed_witness :
  well_formed (server (Some ab))
  ∧ well_formed
      (state_of (SimServer.index (H:=unit5) (Some [("a", [4; 3])])
                   (server (Some ab)))).
Proof.
  assert (well_formed (server (Some ab))) as Hwf
    by (apply well_formed_server; [exact reachable_ab|vm_compute; reflexivity]).
  split; [exact Hwf|].
  exact (proj1 (proj2 (server_index_well_formed (H:=unit5) (server (Some ab))
                         Hwf)) (Some [("a", [4; 3])])).
Defined.

(** X18.  On a server whose index is missing or holds no document, [index]
    returns: it starts a new precomputing index, hands it the batch, and
    clears the buffer; the new index maps exactly the ids of the batch. *)
Theorem index_starts_new_index `{Backend} (s : SimServer.t)
    (corpus : option (list (DocId * Doc))) :
  SimServer.simmodel s = true →
  simindex_truth (SimServer.simindex s) = false →
  ∃ s' idx',
    SimServer.index corpus s = Ok tt s'
    ∧ SimIndex.index_documents (map_to_list (batch_of corpus s))
        (SimIndex.init true) = Ok tt idx'
    ∧ SimServer.simindex s' = Some idx'
    ∧ SimServer.fresh_docs s' = ∅
    ∧ (∀ docid, is_Some (SimIndex.id2pos idx' !! docid)
                ↔ is_Some (batch_of corpus s !! docid))
    ∧ simindex_len idx' = size (batch_of corpus s).
Proof.
  intros Hmodel Htruth. rewrite (index_eq corpus s Hmodel). cbv zeta.
  replace (match SimServer.simindex s with
           | Some idx => if simindex_truth (Some idx) then idx
                         else SimIndex.init true
           | None => SimIndex.init true
           end) with (SimIndex.init true).
  2:{ destruct (SimServer.simindex s); [by rewrite Htruth|done]. }
  destruct (index_documents_init (map_to_list (batch_of corpus s)))
    as [idx' Hrun].
  rewrite Hrun. eexists _, idx'. split_and!; [done..| |].
  all: pose proof (index_documents_spec (map_to_list (batch_of corpus s))
                     (SimIndex.init true) (proj1 (sound_init true))) as Hspec;
    rewrite Hrun in Hspec; destruct Hspec as (_ & (_ & Hin & Hout & _) & _).
  all: assert (∀ docid, is_Some (SimIndex.id2pos idx' !! docid)
                        ↔ is_Some (batch_of corpus s !! docid)) as Hdom.
  1,3: intros docid;
    destruct (decide (docid ∈ (map_to_list (batch_of corpus s)).*1))
      as [Hd|Hd];
    [ destruct (Hin docid Hd) as (pos & -> & _);
      apply list_elem_of_fmap in Hd as ([d doc] & -> & Hd%elem_of_map_to_list);
      simpl; rewrite Hd; split; by eexists
    | rewrite (Hout docid Hd); simpl; rewrite lookup_empty;
      split; [by intros [? ?]|]; intros [doc Hdoc]; destruct Hd;
      apply list_elem_of_fmap; exists (docid, doc); split; [done|];
      by apply elem_of_map_to_list ].
  - done.
  - unfold simindex_len. rewrite <-!size_dom. f_equal. apply set_eq.
    intros docid. rewrite !elem_of_dom. apply Hdom.
Qed.

Lemma index_starts_new_index_witness :
  SimServer.simmodel (server None) = true
  ∧ simindex_truth (SimServer.simindex (server None)) = false
  ∧ ∃ s' idx',
      SimServer.index (H:=unit5) (Some [("a", [3; 4]); ("a", [5; 0])]) (server None)
      = Ok tt s'
      ∧ SimServer.simindex s' = Some idx'
      ∧ simindex_len idx' = 1%nat.
Proof.
  split; [reflexivity|]. split; [reflexivity|].
  destruct (index_starts_new_index (H:=unit5) (server None)
              (Some [("a", [3; 4]); ("a", [5; 0])]) eq_refl eq_refl)
    as (s' & idx' & Hrun & _ & Hidx & _ & _ & Hlen).
  exists s', idx'. split_and!; [exact Hrun|exact Hidx|].
  rewrite Hlen. vm_compute. reflexivity.
Defined.

(** *** SimServer: when index raises *)

Section server_failures.
Context `{Backend}.
Implicit Types s : SimServer.t.


End server_failures.





(** X21.  [drop_index] leaves a server on which [find_similar] raises and
    [index], when the model was kept, returns with a new index of the corpus
    alone; when the model was dropped too, [index] raises. *)
Theorem drop_index_then `{Backend} (s : SimServer.t) (keep_model : bool) :
  ∃ s0, SimServer.drop_index keep_model s = Ok tt s0
    ∧ SimServer.fresh_docs s0 = ∅
    ∧ (∀ doc min_score max_results,
         ∃ method,
           SimServer.find_similar doc min_score max_results s0
           = Err (AttributeError method) s0)
    ∧ ∀ corpus,
        if keep_model && SimServer.simmodel s
        then ∃ s' idx',
               SimServer.index corpus s0 = Ok tt s'
               ∧ SimServer.simindex s' = Some idx'
               ∧ SimIndex.index_documents
                   (map_to_list (batch_of corpus s0)) (SimIndex.init true)
                 = Ok tt idx'
        else ∃ msg, SimServer.index corpus s0 = Err (AttributeError msg) s0.
Proof.
  unfold SimServer.drop_index, bind, modify.
  destruct keep_model; simpl.
  - eexists. split; [done|]. split; [done|]. split.
    + intros. by eexists.
    + intros corpus. destruct (SimServer.simmodel s) eqn:Hmodel.
      * match goal with
        | |- context [SimServer.index corpus ?s0] =>
            rewrite (index_eq corpus s0) by done;
            destruct (index_documents_init (map_to_list (batch_of corpus s0)))
              as [idx' Hrun]
        end.
        cbv zeta.
        cbn [SimServer.simindex SimServer.set_fresh_docs
             SimServer.set_simindex] in *.
        rewrite Hrun. eexists _, idx'. split_and!; reflexivity.
      * unfold SimServer.index, bind, get.
        cbn [SimServer.simmodel SimServer.set_fresh_docs
             SimServer.set_simindex].
        rewrite Hmodel. by eexists.
  - eexists. split; [done|]. split; [done|]. split.
    + intros. by eexists.
    + intros corpus. unfold SimServer.index, bind, get. by eexists.
Qed.

(** *** The loop over the old documents *)

Section old_entries.
Context `{Backend}.
Implicit Types s : SimIndex.t.

(** The loop over the old documents runs through the positions that are
    mapped to an id with an entry. *)
Lemma update_old_loop_Ok tmpindex (pvs : list (nat * Vec)) s :
  (∀ pv, pv ∈ pvs → ∃ docid, SimIndex.pos2id s !! pv.1 = Some docid
                             ∧ is_Some (SimIndex.id2sims s !! docid)) →
  ∃ s1, for_each pvs (SimIndex.update_old_one tmpindex) s = Ok tt s1
        ∧ SimIndex.pos2id s1 = SimIndex.pos2id s.
Proof.
  intros Hall.
  destruct (for_each_Ok
    (λ t : SimIndex.t, SimIndex.pos2id t = SimIndex.pos2id s
         ∧ ∀ docid, is_Some (SimIndex.id2sims s !! docid) →
                    is_Some (SimIndex.id2sims t !! docid))
    pvs (SimIndex.update_old_one tmpindex)) with (s := s)
    as (s1 & Hrun & Hpos & _); [|done|by exists s1].
  intros pv t Hin [Hpos Hdom].
  destruct (Hall pv Hin) as (docid & Hdocid & Hentry).
  pose proof (update_old_one_dom tmpindex pv t) as Hstep.
  pose proof (update_old_one_state tmpindex pv t) as [(_&Hpos'&_) _].
  rewrite update_old_one_eq in *. rewrite Hpos, Hdocid in *.
  destruct (Hdom docid Hentry) as [old Hold].
  rewrite Hold in *. simpl in *. eexists. split; [done|]. simpl. split.
  - done.
  - intros d Hd. by apply Hstep, Hdom.
Qed.

Lemma update_old_first_ghost tmpindex s pos :
  cached s → aligned s → ghost_slot s pos →
  (∀ p, (p < pos)%nat → ¬ ghost_slot s p) →
  ∃ s1, SimIndex.update_old tmpindex (stored_vectors s) (with_qindex s)
        = Err (KeyError_pos pos) s1.
Proof.
  intros Hcached Haligned [Hlt Hnone] Hfirst. unfold aligned in Haligned.
  destruct (with_qindex_spec s) as ((_ & Hpos0 & Hlen0 & _) & Hsims0 & _).
  unfold SimIndex.update_old. rewrite Haligned in Hlt.
  destruct (lookup_lt_is_Some_2 _ _ Hlt) as [vec Hvec].
  rewrite <-(take_drop_middle _ _ _ Hvec), imap_app. simpl.
  rewrite for_each_app. unfold bind at 1.
  destruct (update_old_loop_Ok tmpindex
              (imap (λ pos vec, (pos, vec)) (take pos (stored_vectors s)))
              (with_qindex s)) as (s1 & -> & Hpos1).
  { intros [p v] (i & v' & [= -> ->] & Hi)%elem_of_lookup_imap_1.
    apply lookup_lt_Some in Hi. rewrite length_take in Hi. simpl.
    rewrite Hpos0, Hsims0.
    destruct (SimIndex.pos2id s !! i) as [docid|] eqn:Hdocid.
    - exists docid. split; [done|]. by apply (Hcached i).
    - destruct (Hfirst i); [lia|]. split; [lia|done]. }
  cbn [for_each]. unfold bind. rewrite update_old_one_eq. simpl.
  rewrite length_take, Nat.min_l, Nat.add_0_r by lia.
  rewrite Hpos1, Hpos0, Hnone. by eexists.
Qed.

End old_entries.

(** X22.  On a precomputing index with a ghost slot, [index_documents] raises
    [KeyError] for the first position that is not mapped, having left the id
    maps, the counter and the store as they were. *)
Theorem index_documents_first_ghost `{Backend} (s : SimIndex.t)
    (fresh_docs : list (DocId * Doc)) (pos : nat) :
  reachable s → SimIndex.precompute s = true → ghost_slot s pos →
  (∀ p, (p < pos)%nat → ¬ ghost_slot s p) →
  ∃ s', SimIndex.index_documents fresh_docs s = Err (KeyError_pos pos) s'
        ∧ same_identity s s'.
Proof.
  intros Hr Hpre Hghost Hfirst.
  destruct (reachable_sound_cache s Hr) as [Hs _].
  pose proof (index_documents_steps fresh_docs s Hs Hpre) as Hsteps.
  cbv zeta in Hsteps.
  destruct (update_old_first_ghost
              (map unitvec (map doc2vec fresh_docs.*2)) s pos
              (reachable_cached s Hr Hpre) (reachable_aligned s Hr)
              Hghost Hfirst) as [s1 Hrun1].
  rewrite Hrun1 in Hsteps. exists s1. split; [done|].
  pose proof (index_documents_spec fresh_docs s Hs) as Hspec.
  rewrite Hsteps in Hspec. by destruct Hspec as (? & _).
Qed.

Lemma index_documents_first_ghost_witness :
  reachable ab_without_a
  ∧ SimIndex.precompute ab_without_a = true
  ∧ ghost_slot ab_without_a 0
  ∧ (∀ p, (p < 0)%nat → ¬ ghost_slot ab_without_a p)
  ∧ ∃ s', index [("c", [4; 3])] ab_without_a = Err (KeyError_pos 0) s'
          ∧ same_identity ab_without_a s'.
Proof.
  assert (reachable ab_without_a) as Hr
    by apply reachable_delete, reachable_ab.
  assert (SimIndex.precompute ab_without_a = true) as Hpre
    by (vm_compute; reflexivity).
  assert (ghost_slot ab_without_a 0) as Hghost
    by (split; [change (0 < 2)%nat; lia|vm_compute; reflexivity]).
  assert (∀ p, (p < 0)%nat → ¬ ghost_slot ab_without_a p) as Hfirst
    by (intros p Hp; lia).
  split_and!; [exact Hr|exact Hpre|exact Hghost|exact Hfirst|].
  exact (index_documents_first_ghost (H:=unit5) ab_without_a
           [("c", [4; 3])] 0 Hr Hpre Hghost Hfirst).
Defined.

(** X23.  What a precomputing index does to the entry of a document it already
    holds and that is not in the batch: it merges into it what [sims2scores]
    makes, with the [pos2id] of before the call, of the scores of the
    document's stored vector against the vectors of the batch alone. *)
Theorem old_document_entry `{Backend} (s s' : SimIndex.t)
    (fresh_docs : list (DocId * Doc)) (docid : DocId) (pos : nat) :
  consistent s → SimIndex.precompute s = true →
  SimIndex.index_documents fresh_docs s = Ok tt s' →
  SimIndex.id2pos s !! docid = Some pos → (docid ∉ fresh_docs.*1) →
  ∃ old vec,
    SimIndex.id2sims s !! docid = Some old
    ∧ stored_vectors s !! pos = Some vec
    ∧ SimIndex.id2sims s' !! docid
      = Some (merge_sim old
                (SimIndex.sims2scores s
                   (map (dot vec)
                      (map unitvec (map doc2vec fresh_docs.*2))))).
Proof.
  intros Hc Hpre Hrun Hpos Hnotin.
  apply (old_entry_merged fresh_docs s s' docid pos); try done.
  - by apply consistent_reachable.
  - by destruct (consistent_exact s Hc).
Qed.

Lemma old_document_entry_witness :
  consistent ab
  ∧ SimIndex.precompute ab = true
  ∧ index [("c", [4; 3])] ab = Ok tt ab_then_c
  ∧ SimIndex.id2pos ab !! "a" = Some 0%nat
  ∧ ("a" ∉ [("c", ([4; 3] : list Z))].*1)
  ∧ ∃ old vec,
      SimIndex.id2sims ab !! "a" = Some old
      ∧ stored_vectors ab !! 0%nat = Some vec
      ∧ SimIndex.id2sims ab_then_c !! "a"
        = Some (merge_sim old
                  (SimIndex.sims2scores ab
                     (map (dot_product vec)
                        (map id (map id [("c", ([4; 3] : list Z))].*2))))).
Proof.
  assert (consistent ab) as Hc by apply consistent_index, consistent_init.
  assert (SimIndex.precompute ab = true) as Hpre by (vm_compute; reflexivity).
  assert (index [("c", [4; 3])] ab = Ok tt ab_then_c) as Hrun
    by (vm_compute; reflexivity).
  assert (SimIndex.id2pos ab !! "a" = Some 0%nat) as Hpos
    by (vm_compute; reflexivity).
  assert ("a" ∉ [("c", ([4; 3] : list Z))].*1) as Hnotin.
  { intros [Heq|[]%elem_of_nil]%elem_of_cons. discriminate Heq. }
  split_and!; [exact Hc|exact Hpre|exact Hrun|exact Hpos|exact Hnotin|].
  exact (old_document_entry (H:=unit5) ab ab_then_c [("c", [4; 3])] "a" 0
           Hc Hpre Hrun Hpos Hnotin).
Defined.
